(** * The realtime session relay of [backend/src/session.ts]

    A shallow embedding of [RTSession]: the wire messages, the handlers for
    client frames, the upstream event loop with its content handlers, and
    the properties the specification states about them.

    The session talks to two collaborators, the client's WebSocket ([ws])
    and the upstream realtime client ([RTClient]), and to a logger.  Every
    operation it performs on them is recorded, in order, in a trace of
    [Effect]s; a handler is a function from the world before it runs to its
    result (a value or a thrown error) and the world after.

    A run of a handler gives the handler's own effects, in its own order.
    The socket does not await its listeners, so at an await the effects of
    another handler may come in between; the session keeps no state of its
    own between handlers, and the theorems are about one handler, or about
    the event loop, from its start to its end.  The one place where two
    activities of the same handler run concurrently, the two consumers of
    an audio entry joined by [Promise.all], is modelled with an explicit
    order of delivery, over which the theorems quantify.  A rejection that
    nobody handles is recorded in the trace: [app.ts] installs no handler
    for it, so the host ends the process there, and with it the client's
    connection. *)

From Stdlib Require Import List String Ascii PeanoNat NArith Bool Lia.
From Stdlib Require Import DecimalString DecimalN DecimalPos.
Import ListNotations.
Local Open Scope string_scope.
Local Open Scope list_scope.

Set Implicit Arguments.
Set Warnings "-register-all".

(** ** Values *)

(** A Node [Buffer] / [ArrayBuffer]: a sequence of octets. *)
Definition Buffer := string.

(** What a [throw] carries.  [JSON.parse] raises a [SyntaxError], reading a
    property of [null] a [TypeError]; a failure of the upstream client is an
    arbitrary rejection reason. *)
Inductive JsError : Type :=
| SyntaxError (what : string)
| TypeError (what : string)
| Rejected (reason : string).

(** A parsed JSON document.  The fields of an object are kept in source
    order, duplicates included. *)
Inductive JSON : Type :=
| JNull
| JBool (b : bool)
| JNumber (lexeme : string)
| JString (s : string)
| JArray (elements : list JSON)
| JObject (fields : list (string * JSON)).

(** A JavaScript value read out of a parsed document: [None] is
    [undefined]. *)
Definition JsValue := option JSON.

(** ** Wire messages (the interfaces at the top of session.ts) *)

Inductive ControlMessage : Type :=
| SpeechStarted
| Connected (greeting : string)
| TextDone (id : string).

Inductive WSMessage : Type :=
| TextDelta (id : string) (delta : string)
| Transcription (id : string) (text : string)
| UserMessage (id : string) (text : string)
| Control (c : ControlMessage).

(** The [id] field of a message, when its shape has one. *)
Definition message_id (m : WSMessage) : option string :=
  match m with
  | TextDelta id _ => Some id
  | Transcription id _ => Some id
  | UserMessage id _ => Some id
  | Control (TextDone id) => Some id
  | Control SpeechStarted => None
  | Control (Connected _) => None
  end.

(** ** Effects *)

Inductive Level : Type := Debug | Info | Error.

(** The options the session configures the upstream with. *)
Record SessionOptions : Type := mkOptions {
  modalities : list string;
  input_audio_format : string;
  input_audio_transcription : string;
  turn_detection : string
}.

(** Operations of the upstream client the session invokes. *)
Inductive UpCall : Type :=
| Configure (options : SessionOptions)
| SendAudio (audio : Buffer)
| SendItem (text : JsValue)
| GenerateResponse
| Events
| WaitForCompletion (item : string)
| Close.

(** One observable step of a session.  [WsSend] is [ws.send] of the JSON
    text of a message (the message is kept structured), [WsSendBinary] is
    [ws.send(.., {binary: true})], [WsClose] stands for [ws.close] /
    [ws.terminate].  [UnhandledRejection] records a promise that rejected
    with nobody awaiting it; the host ends the process on it. *)
Inductive Effect : Type :=
| WsSend (m : WSMessage)
| WsSendBinary (payload : Buffer)
| WsClose
| Log (lvl : Level) (msg : string)
| Upstream (c : UpCall)
| UnhandledRejection (e : JsError).

(** The world a handler runs in: what has happened so far, and what work
    detached from its awaiter ([background]) will still do. *)
Record World : Type := mkWorld {
  trace : list Effect;
  background : list Effect
}.

Definition empty_world : World := mkWorld [] [].

(** Everything observed once the detached work has run too. *)
Definition settled (w : World) : list Effect := trace w ++ background w.

Definition record_effect (e : Effect) (w : World) : World :=
  mkWorld (trace w ++ [e]) (background w).

(** ** The handler monad: state passing with exceptions *)

Inductive Result (A : Type) : Type :=
| Ok (a : A)
| Throw (e : JsError).
Arguments Ok {A} a.
Arguments Throw {A} e.

Definition M (A : Type) : Type := World -> Result A * World.

Definition ret {A} (a : A) : M A := fun w => (Ok a, w).

Definition throw {A} (e : JsError) : M A := fun w => (Throw e, w).

Definition bind {A B} (m : M A) (k : A -> M B) : M B :=
  fun w =>
    match m w with
    | (Ok a, w') => k a w'
    | (Throw e, w') => (Throw e, w')
    end.

Notation "x <- m ;; k" := (bind m (fun x => k))
  (at level 61, m at next level, right associativity).
Notation "m ;; k" := (bind m (fun _ => k))
  (at level 61, right associativity).

(** [try { body } catch (error) { handler error }] *)
Definition try_catch {A} (body : M A) (handler : JsError -> M A) : M A :=
  fun w =>
    match body w with
    | (Throw e, w') => handler e w'
    | r => r
    end.

(** Calling an async function without awaiting it: the caller goes on, and
    a rejection has no handler. *)
Definition detached (m : M unit) : M unit :=
  fun w =>
    match m w with
    | (Ok _, w') => (Ok tt, w')
    | (Throw e, w') => (Ok tt, record_effect (UnhandledRejection e) w')
    end.

Definition emit (e : Effect) : M unit := fun w => (Ok tt, record_effect e w).

Definition log (lvl : Level) (msg : string) : M unit := emit (Log lvl msg).

(** ** Lazy sequences

    An async iterable of the upstream client, as consumed by [for await]:
    the values it yields, and how it ends (normally, or by throwing). *)
Record Seq (A : Type) : Type := mkSeq {
  yields : list A;
  ending : option JsError
}.

Fixpoint for_each {A} (body : A -> M unit) (xs : list A) : M unit :=
  match xs with
  | [] => ret tt
  | x :: rest => body x ;; for_each body rest
  end.

Definition finish (e : option JsError) : M unit :=
  match e with
  | None => ret tt
  | Some err => throw err
  end.

(** [for await (const x of s) { body x }] *)
Definition for_await {A} (s : Seq A) (body : A -> M unit) : M unit :=
  for_each body (yields s) ;; finish (ending s).

(** ** Upstream data *)

Record RTTextContent : Type := mkText {
  text_itemId : string;
  text_contentIndex : N;
  textChunks : Seq string
}.

(** A chunk of audio: a typed array, that is a view of [byteLength] octets
    starting at [byteOffset] in its underlying array [buffer]. *)
Record AudioChunk : Type := mkView {
  buffer : Buffer;
  byteOffset : nat;
  byteLength : nat
}.



(** A chunk with an array of its own. *)
Definition mkChunk (octets : Buffer) : AudioChunk :=
  mkView octets 0 (String.length octets).

Inductive Branch : Type := AudioBranch | TranscriptBranch.

(** An audio content entry.  [arrival] is the order in which the upstream
    delivers on the two sequences: which of the two consumers wakes next. *)
Record RTAudioContent : Type := mkAudio {
  audio_itemId : string;
  audio_contentIndex : N;
  audioChunks : Seq AudioChunk;
  transcriptChunks : Seq string;
  arrival : list Branch
}.

Inductive Content : Type :=
| TextContent (c : RTTextContent)
| AudioContent (c : RTAudioContent)
| OtherContent (type : string).

Inductive Item : Type :=
| MessageItem (contents : Seq Content)
| OtherItem (type : string).

Record RTInputAudioItem : Type := mkInputAudio {
  input_id : string;
  transcription : option string;
  completion : option JsError
}.

Inductive UpstreamEvent : Type :=
| ResponseEvent (items : Seq Item)
| InputAudioEvent (item : RTInputAudioItem)
| OtherEvent (type : string).

(** ** RTSession *)

(** [`${n}`] for a non-negative integer. *)
Definition number_to_string (n : N) : string :=
  NilZero.string_of_uint (N.to_uint n).

(** [`${itemId}-${contentIndex}`] *)
Definition content_reference (itemId : string) (contentIndex : N) : string :=
  itemId ++ "-" ++ number_to_string contentIndex.

(** [send(message)]: [this.ws.send(JSON.stringify(message))] *)
Definition send (message : WSMessage) : M unit := emit (WsSend message).

(** [sendBinary(message)]: [this.ws.send(Buffer.from(message), {binary: true})];
    [Buffer.from] of an array buffer is a view of the same octets. *)
Definition sendBinary (message : Buffer) : M unit := emit (WsSendBinary message).

Definition handleTextContent (content : RTTextContent) : M unit :=
  try_catch
    (let contentId :=
       content_reference (text_itemId content) (text_contentIndex content) in
     for_await (textChunks content)
       (fun text => send (TextDelta contentId text)) ;;
     send (Control (TextDone contentId)) ;;
     log Debug "Text content processed successfully")
    (fun error =>
       log Error "Error handling text content" ;;
       throw error).

(** *** Audio content: two consumers joined by [Promise.all] *)

(** What an async function that only writes to the socket does when run on
    its own: its effects in order, and how its promise settles.  The two
    consumers below are such functions (they behave the same in any
    world), so each can be run on its own and the two runs interleaved. *)
Definition in_isolation (m : M unit) : list Effect * Result unit :=
  let '(r, w) := m empty_world in (trace w, r).

(** The outcome of awaiting [Promise.all] of two running functions: how the
    joint promise settles, what happened up to that moment, and what the
    function still running after a rejection does afterwards. *)
Record Joined : Type := mkJoined {
  joined_result : Result unit;
  before_settling : list Effect;
  after_settling : list Effect
}.

Definition prepend (es : list Effect) (j : Joined) : Joined :=
  mkJoined (joined_result j) (es ++ before_settling j) (after_settling j).

Section PromiseAll.
(** How each function's promise settles once its effects are done. *)
Variables ra rt : Result unit.

(** The first function has finished; [others] is what the second still
    has to do.  A rejection settles the joint promise at once and leaves
    the other function running; a fulfilment waits for the other one. *)
Definition first_settles (r other : Result unit) (others : list Effect) : Joined :=
  match r with
  | Throw e => mkJoined (Throw e) [] others
  | Ok _ => mkJoined other others []
  end.

(** The two functions advance in the order [order] names them; when the
    order runs out the audio function runs to its end, then the other. *)
Fixpoint race (order : list Branch) (la lt : list Effect) : Joined :=
  match order with
  | [] => prepend la (first_settles ra rt lt)
  | AudioBranch :: rest =>
      match la with
      | x :: la' => prepend [x] (race rest la' lt)
      | [] => first_settles ra rt lt
      end
  | TranscriptBranch :: rest =>
      match lt with
      | y :: lt' => prepend [y] (race rest la lt')
      | [] => first_settles rt ra la
      end
  end.
End PromiseAll.

(** [await Promise.all([audio(), transcript()])] *)
Definition promise_all (order : list Branch) (audio transcript : M unit) : M unit :=
  fun w =>
    let '(la, ra) := in_isolation audio in
    let '(lt, rt) := in_isolation transcript in
    let j := race ra rt order la lt in
    (joined_result j,
     mkWorld (trace w ++ before_settling j) (background w ++ after_settling j)).

Definition handleAudioChunks (content : RTAudioContent) : M unit :=
  for_await (audioChunks content) (fun chunk => sendBinary (buffer chunk)).

Definition handleAudioTranscript (content : RTAudioContent) : M unit :=
  let contentId :=
    content_reference (audio_itemId content) (audio_contentIndex content) in
  for_await (transcriptChunks content)
    (fun chunk => send (TextDelta contentId chunk)) ;;
  send (Control (TextDone contentId)).

Definition handleAudioContent (content : RTAudioContent) : M unit :=
  try_catch
    (promise_all (arrival content)
       (handleAudioChunks content) (handleAudioTranscript content) ;;
     log Debug "Audio content processed successfully")
    (fun error =>
       log Error "Error handling audio content" ;;
       throw error).

(** *** Responses, input audio and the event loop *)

(** The bodies of the two nested loops of [handleResponse]: over the
    content entries of a message item, and over the items of a response. *)
Definition handleContent (content : Content) : M unit :=
  match content with
  | TextContent c => handleTextContent c
  | AudioContent c => handleAudioContent c
  | OtherContent _ => ret tt
  end.

Definition handleItem (item : Item) : M unit :=
  match item with
  | MessageItem contents => for_await contents handleContent
  | OtherItem _ => ret tt
  end.

Definition handleResponse (event : Seq Item) : M unit :=
  try_catch
    (for_await event handleItem ;;
     log Debug "Response handled successfully")
    (fun error =>
       log Error "Error handling response" ;;
       throw error).

(** [event.transcription || ""] *)
Definition or_empty (t : option string) : string :=
  match t with
  | Some s => s
  | None => ""
  end.

(** [await event.waitForCompletion()] *)
Definition waitForCompletion (event : RTInputAudioItem) : M unit :=
  emit (Upstream (WaitForCompletion (input_id event))) ;;
  finish (completion event).

Definition handleInputAudio (event : RTInputAudioItem) : M unit :=
  try_catch
    (send (Control SpeechStarted) ;;
     waitForCompletion event ;;
     let message :=
       Transcription (input_id event) (or_empty (transcription event)) in
     send message ;;
     log Debug "Input audio processed successfully")
    (fun error =>
       log Error "Error handling input audio" ;;
       throw error).

(** The body of the loop of [startEventLoop]. *)
Definition handleEvent (event : UpstreamEvent) : M unit :=
  match event with
  | ResponseEvent e => handleResponse e
  | InputAudioEvent e => handleInputAudio e
  | OtherEvent _ => ret tt
  end.

(** [events] is what [this.client.events()] will deliver. *)
Definition startEventLoop (events : Seq UpstreamEvent) : M unit :=
  try_catch
    (log Debug "Starting event loop" ;;
     emit (Upstream Events) ;;
     for_await events handleEvent)
    (fun error =>
       log Error "Error in event loop" ;;
       throw error).

(** *** Client frames *)

(** The own property [k] of a parsed object; of duplicate keys
    [JSON.parse] keeps the last. *)
Fixpoint own_property (k : string) (fields : list (string * JSON)) : JsValue :=
  match fields with
  | [] => None
  | (k', v) :: rest =>
      match own_property k rest with
      | Some later => Some later
      | None => if String.eqb k k' then Some v else None
      end
  end.

(** [parsed.k], for the two names the session reads ([type] and [text],
    neither of which a prototype defines): a [TypeError] on [null],
    [undefined] on any other value that is not an object with that key. *)
Definition get_property (parsed : JSON) (k : string) : M JsValue :=
  match parsed with
  | JNull => throw (TypeError "Cannot read properties of null")
  | JObject fields => ret (own_property k fields)
  | _ => ret None
  end.

(** [v === s] for a string literal [s] *)
Definition strict_equals (v : JsValue) (s : string) : bool :=
  match v with
  | Some (JString s') => String.eqb s' s
  | _ => false
  end.

(** The fixed conversation parameters of [initialize]. *)
Definition session_options : SessionOptions :=
  {| modalities := ["text"; "audio"];
     input_audio_format := "pcm16";
     input_audio_transcription := "whisper-1";
     turn_detection := "server_vad" |}.

(** Which upstream the session was built for. *)
Inductive Backend : Type := AzureBackend | OpenAIBackend.

Section Session.
(** The runtime and the upstream service, as the session meets them:
    [message.toString("utf-8")], [JSON.parse] ([None] when it raises its
    [SyntaxError]), and whether a call on the upstream client fails, given
    everything that happened before it. *)
Variable toString_utf8 : Buffer -> string.
Variable JSON_parse : string -> option JSON.
Variable upstream_outcome : list Effect -> UpCall -> option JsError.

Definition parse (text : string) : M JSON :=
  match JSON_parse text with
  | Some v => ret v
  | None => throw (SyntaxError "Unexpected token in JSON")
  end.

(** [await this.client.c(..)] *)
Definition upstream (c : UpCall) : M unit :=
  fun w =>
    (match upstream_outcome (trace w) c with
     | None => Ok tt
     | Some e => Throw e
     end,
     record_effect (Upstream c) w).

(** [events] is what [this.client.events()] will deliver once the loop is
    started. *)
Definition initialize (events : Seq UpstreamEvent) : M unit :=
  log Debug "Configuring realtime session" ;;
  upstream (Configure session_options) ;;
  log Debug "Realtime session configured successfully" ;;
  let greeting := Connected "You are now connected to the a expressjs server" in
  send (Control greeting) ;;
  log Debug "Realtime session configured successfully" ;;
  detached (startEventLoop events).

Definition handleBinaryMessage (message : Buffer) : M unit :=
  try_catch
    (upstream (SendAudio message))
    (fun error =>
       log Error "Failed to send audio data" ;;
       throw error).

Definition handleTextMessage (message : Buffer) : M unit :=
  let messageString := toString_utf8 message in
  parsed <- parse messageString ;;
  type <- get_property parsed "type" ;;
  log Debug "Received text message" ;;
  if strict_equals type "user_message" then
    try_catch
      (text <- get_property parsed "text" ;;
       upstream (SendItem text) ;;
       upstream GenerateResponse ;;
       log Debug "User message processed successfully")
      (fun error =>
         log Error "Failed to process user message" ;;
         throw error)
  else ret tt.

Definition handleMessage (message : Buffer) (isBinary : bool) : M unit :=
  try_catch
    (if isBinary then handleBinaryMessage message
     else handleTextMessage message)
    (fun error => log Error "Error handling message").

Definition handleClose : M unit :=
  log Info "Session closing" ;;
  try_catch
    (upstream Close ;;
     log Info "Session closed successfully")
    (fun error => log Error "Error closing session").

(** The socket's [error] event. *)
Definition handleSocketError : M unit :=
  log Error "WebSocket error occurred".

(** [initializeClient(backend)]: which client is built.  Reading the
    endpoint, key and deployment from the environment and constructing the
    client are taken to succeed. *)
Definition initializeClient (backend : option string) : M Backend :=
  log Debug "Initializing RT client" ;;
  match backend with
  | Some b => if String.eqb b "azure" then ret AzureBackend else ret OpenAIBackend
  | None => ret OpenAIBackend
  end.

(** [setupEventHandlers()]: registers [handleMessage], [handleClose] and
    [handleSocketError] on the socket. *)
Definition setupEventHandlers : M unit :=
  log Debug "Client configured successfully".

(** The constructor: [this.initialize()] is called and not awaited. *)
Definition construct (backend : option string) (events : Seq UpstreamEvent) : M unit :=
  client <- initializeClient backend ;;
  setupEventHandlers ;;
  log Info "New session created" ;;
  detached (initialize events).
End Session.

(** ** A reader of JSON text

    The theorems below hold for whatever [JSON.parse] is.  To run the
    handlers on concrete frames, this reader instantiates it: RFC 8259
    documents, with the two-character escapes in strings (no [\u] escapes;
    numbers are kept as their lexeme). *)
Module JsonText.
Local Open Scope string_scope.

Definition is_ws (c : ascii) : bool :=
  match c with
  | " "%char | "009"%char | "010"%char | "013"%char => true
  | _ => false
  end.

Fixpoint skip_ws (s : string) : string :=
  match s with
  | String c rest => if is_ws c then skip_ws rest else s
  | EmptyString => s
  end.

Definition is_digit (c : ascii) : bool :=
  let n := nat_of_ascii c in (48 <=? n)%nat && (n <=? 57)%nat.

(** The longest prefix of digits, and what follows it. *)
Fixpoint digits (s : string) : string * string :=
  match s with
  | String c rest =>
      if is_digit c then let '(d, r) := digits rest in (String c d, r)
      else (EmptyString, s)
  | EmptyString => (EmptyString, s)
  end.

(** The quotation mark, U+0022. *)
Definition quote : ascii := ascii_of_nat 34.

Definition unescape (c : ascii) : option ascii :=
  if Ascii.eqb c quote then Some quote
  else match c with
       | "\"%char => Some "\"%char
       | "/"%char => Some "/"%char
       | "b"%char => Some "008"%char
       | "f"%char => Some "012"%char
       | "n"%char => Some "010"%char
       | "r"%char => Some "013"%char
       | "t"%char => Some "009"%char
       | _ => None
       end.

(** The characters of a string literal after its opening quote, up to the
    closing one. *)
Fixpoint string_body (s : string) : option (string * string) :=
  match s with
  | EmptyString => None
  | String c rest =>
      if Ascii.eqb c quote then Some (EmptyString, rest)
      else if Ascii.eqb c "\" then
        match rest with
        | String e rest' =>
            match unescape e, string_body rest' with
            | Some c', Some (body, r) => Some (String c' body, r)
            | _, _ => None
            end
        | EmptyString => None
        end
      else if (nat_of_ascii c <? 32)%nat then None
      else match string_body rest with
           | Some (body, r) => Some (String c body, r)
           | None => None
           end
  end.

(** [s] between quotation marks, for writing frames down. *)
Definition quoted (s : string) : string :=
  String quote (s ++ String quote EmptyString).

Definition optional_part (lead : string -> option (string * string)) (s : string)
  : string * string :=
  match lead s with
  | Some (l, after) =>
      let '(d, r) := digits after in
      if String.eqb d "" then ("", s) else (l ++ d, r)
  | None => ("", s)
  end.

Definition fraction_lead (s : string) : option (string * string) :=
  match s with
  | String "."%char r => Some (".", r)
  | _ => None
  end.

Definition exponent_lead (s : string) : option (string * string) :=
  match s with
  | String e r =>
      if (Ascii.eqb e "e" || Ascii.eqb e "E")%bool then
        match r with
        | String sg r' =>
            if (Ascii.eqb sg "+" || Ascii.eqb sg "-")%bool
            then Some (String e (String sg ""), r')
            else Some (String e "", r)
        | EmptyString => Some (String e "", r)
        end
      else None
  | EmptyString => None
  end.

(** A number: its lexeme and what follows. *)
Definition number (s : string) : option (string * string) :=
  let '(sign, s1) :=
    match s with
    | String "-"%char r => ("-", r)
    | _ => ("", s)
    end in
  let '(int, s2) := digits s1 in
  let well_formed :=
    match int with
    | EmptyString => false
    | String "0"%char (String _ _) => false
    | _ => true
    end in
  if well_formed then
    let '(frac, s3) := optional_part fraction_lead s2 in
    let '(exp, s4) := optional_part exponent_lead s3 in
    Some (sign ++ int ++ frac ++ exp, s4)
  else None.

Definition literal (word : string) (v : JSON) (s : string) : option (JSON * string) :=
  if String.prefix word s
  then Some (v, substring (String.length word) (String.length s - String.length word) s)
  else None.

Fixpoint value (fuel : nat) (s : string) {struct fuel} : option (JSON * string) :=
  match fuel with
  | O => None
  | S fuel' =>
      match skip_ws s with
      | String "{"%char rest =>
          match skip_ws rest with
          | String "}"%char r => Some (JObject [], r)
          | _ => members fuel' rest []
          end
      | String "["%char rest =>
          match skip_ws rest with
          | String "]"%char r => Some (JArray [], r)
          | _ => elements fuel' rest []
          end
      | String "t"%char _ => literal "true" (JBool true) (skip_ws s)
      | String "f"%char _ => literal "false" (JBool false) (skip_ws s)
      | String "n"%char _ => literal "null" JNull (skip_ws s)
      | String c rest =>
          if Ascii.eqb c quote then
            match string_body rest with
            | Some (body, r) => Some (JString body, r)
            | None => None
            end
          else
            match number (String c rest) with
            | Some (lexeme, r) => Some (JNumber lexeme, r)
            | None => None
            end
      | EmptyString => None
      end
  end
with elements (fuel : nat) (s : string) (acc : list JSON) {struct fuel}
  : option (JSON * string) :=
  match fuel with
  | O => None
  | S fuel' =>
      match value fuel' s with
      | Some (v, r) =>
          match skip_ws r with
          | String ","%char r' => elements fuel' r' (v :: acc)
          | String "]"%char r' => Some (JArray (rev (v :: acc)), r')
          | _ => None
          end
      | None => None
      end
  end
with members (fuel : nat) (s : string) (acc : list (string * JSON)) {struct fuel}
  : option (JSON * string) :=
  match fuel with
  | O => None
  | S fuel' =>
      match skip_ws s with
      | String c rest =>
          if Ascii.eqb c quote then
            match string_body rest with
            | Some (key, r) =>
                match skip_ws r with
                | String ":"%char r1 =>
                    match value fuel' r1 with
                    | Some (v, r2) =>
                        match skip_ws r2 with
                        | String ","%char r3 => members fuel' r3 ((key, v) :: acc)
                        | String "}"%char r3 => Some (JObject (rev ((key, v) :: acc)), r3)
                        | _ => None
                        end
                    | None => None
                    end
                | _ => None
                end
            | None => None
            end
          else None
      | EmptyString => None
      end
  end.

Definition parse_json (text : string) : option JSON :=
  match value (2 * String.length text + 2) text with
  | Some (v, r) => if String.eqb (skip_ws r) "" then Some v else None
  | None => None
  end.

End JsonText.

(** ** Sample data

    The runtime and some traffic to run the handlers on. *)

(** Frames that are well-formed UTF-8 decode to themselves. *)
Definition utf8 (b : Buffer) : string := b.

(** An upstream on which every call succeeds. *)
Definition upstream_healthy : list Effect -> UpCall -> option JsError :=
  fun _ _ => None.

(** An upstream that refuses audio. *)
Definition upstream_refuses_audio : list Effect -> UpCall -> option JsError :=
  fun _ c =>
    match c with
    | SendAudio _ => Some (Rejected "upstream unavailable")
    | _ => None
    end.

(** An upstream that cannot be configured. *)
Definition upstream_refuses_configuration : list Effect -> UpCall -> option JsError :=
  fun _ c =>
    match c with
    | Configure _ => Some (Rejected "configuration refused")
    | _ => None
    end.

(** The user message of the specification's scenario:
    an object with type user_message, id m1 and text hello. *)
Definition user_message_frame : Buffer :=
  ("{" ++ JsonText.quoted "type" ++ ":" ++ JsonText.quoted "user_message" ++ ","
       ++ JsonText.quoted "id" ++ ":" ++ JsonText.quoted "m1" ++ ","
       ++ JsonText.quoted "text" ++ ":" ++ JsonText.quoted "hello" ++ "}")%string.

(** Not JSON. *)
Definition malformed_frame : Buffer := "{oops".

(** A JSON object without a type field: only an id, m1. *)
Definition untyped_frame : Buffer :=
  ("{" ++ JsonText.quoted "id" ++ ":" ++ JsonText.quoted "m1" ++ "}")%string.

(** One response with one message item with one text entry, whose chunk
    sequence yields one chunk and then fails. *)
Definition broken_text_stream : RTTextContent :=
  mkText "A1" 0 (mkSeq ["hi"] (Some (Rejected "stream broke"))).

Definition broken_stream_events : Seq UpstreamEvent :=
  mkSeq
    [ResponseEvent
       (mkSeq [MessageItem (mkSeq [TextContent broken_text_stream] None)] None)]
    None.

(** ** Observations on a trace *)

Fixpoint collect {A B} (f : A -> option B) (l : list A) : list B :=
  match l with
  | [] => []
  | x :: rest =>
      match f x with
      | Some y => y :: collect f rest
      | None => collect f rest
      end
  end.

(** The JSON messages sent to the client, in order. *)
Definition messages : list Effect -> list WSMessage :=
  collect (fun e => match e with WsSend m => Some m | _ => None end).

(** The payloads of the binary frames sent to the client, in order. *)
Definition binary_frames : list Effect -> list Buffer :=
  collect (fun e => match e with WsSendBinary b => Some b | _ => None end).

(** The calls made on the upstream client, in order. *)
Definition upstream_calls : list Effect -> list UpCall :=
  collect (fun e => match e with Upstream c => Some c | _ => None end).

(** An effect that ends the session: closing the client's socket, or
    releasing the upstream connection. *)
Definition closes (e : Effect) : bool :=
  match e with
  | WsClose => true
  | Upstream Close => true
  | _ => false
  end.

Definition keeps_open (e : Effect) : Prop := closes e = false.

(** [w] after the effects [new] happened, and after [later] was left to
    detached work. *)
Definition grow (w : World) (new later : list Effect) : World :=
  mkWorld (trace w ++ new) (background w ++ later).

Definition extend (w : World) (new : list Effect) : World :=
  mkWorld (trace w ++ new) (background w).

(** What draining a sequence that ended with [e] is owed: the completion
    marker when it ended normally, nothing when it threw. *)
Definition completion_marker (ref : string) (e : option JsError) : list WSMessage :=
  match e with
  | None => [Control (TextDone ref)]
  | Some _ => []
  end.

Definition outcome (e : option JsError) : Result unit :=
  match e with
  | None => Ok tt
  | Some err => Throw err
  end.

(** What each of the two consumers of an audio entry does on its own. *)
Definition audio_effects (content : RTAudioContent) : list Effect :=
  map (fun chunk => WsSendBinary (buffer chunk)) (yields (audioChunks content)).

Definition transcript_effects (content : RTAudioContent) : list Effect :=
  let ref := content_reference (audio_itemId content) (audio_contentIndex content) in
  map (fun chunk => WsSend (TextDelta ref chunk)) (yields (transcriptChunks content))
    ++ match ending (transcriptChunks content) with
       | None => [WsSend (Control (TextDone ref))]
       | Some _ => []
       end.

(** The two consumers of an audio entry, joined. *)
Definition audio_join (content : RTAudioContent) : Joined :=
  race (outcome (ending (audioChunks content)))
       (outcome (ending (transcriptChunks content)))
       (arrival content) (audio_effects content) (transcript_effects content).

(** A handler is confined to [P] when every effect it adds, at once or
    through detached work, satisfies [P], whatever world it starts in and
    however it ends. *)
Definition confined (P : Effect -> Prop) {A} (m : M A) : Prop :=
  forall w, exists new later,
    snd (m w) = grow w new later /\ Forall P new /\ Forall P later.

(** ** The specification's vocabulary, on traces *)

Definition is_text_done (ref : string) (m : WSMessage) : bool :=
  match m with
  | Control (TextDone id) => String.eqb id ref
  | _ => false
  end.

(** The client saw the stream [ref] opened: a delta with that reference. *)
Definition stream_opened (ref : string) (es : list Effect) : Prop :=
  exists delta, In (TextDelta ref delta) (messages es).

(** The client's connection is closed abruptly: the session closes the
    socket, or a rejection is left unhandled.  [app.ts] installs no handler
    for unhandled rejections, so the host ends the process at the first
    one, and every connection with it. *)
Definition connection_dropped (es : list Effect) : Prop :=
  In WsClose es \/ exists e, In (UnhandledRejection e) es.

(** The client saw the stream [ref] end: exactly one [text_done] for it, or
    its connection closed abruptly. *)
Definition stream_ended (ref : string) (es : list Effect) : Prop :=
  List.length (filter (is_text_done ref) (messages es)) = 1
  \/ connection_dropped es.

(** The session is being torn down: something closed the client's socket
    or released the upstream connection. *)
Definition tearing_down (es : list Effect) : bool := existsb closes es.

(** The client was told the session is active. *)
Definition greeted (es : list Effect) : bool :=
  existsb (fun m => match m with Control (Connected _) => true | _ => false end)
    (messages es).

(** The upstream event loop was started. *)
Definition event_loop_started (es : list Effect) : bool :=
  existsb (fun c => match c with Events => true | _ => false end)
    (upstream_calls es).

(** Decoding of a text frame failed: the handler threw before it did
    anything. *)
Definition decode_fails (toString_utf8 : Buffer -> string)
    (JSON_parse : string -> option JSON) (frame : Buffer) : Prop :=
  exists e,
    handleTextMessage toString_utf8 JSON_parse upstream_healthy frame empty_world
    = (Throw e, empty_world).

(** The frame is a JSON object without a [type] field. *)
Definition lacks_discriminant (toString_utf8 : Buffer -> string)
    (JSON_parse : string -> option JSON) (frame : Buffer) : Prop :=
  exists fields,
    JSON_parse (toString_utf8 frame) = Some (JObject fields) /\
    own_property "type" fields = None.

(** ** What a run without failure sends

    The messages and binary frames the handlers owe the client for a piece
    of upstream data, read off the loops of [handleResponse] and
    [startEventLoop], and when every sequence in that piece ends normally. *)

Definition text_messages (c : RTTextContent) : list WSMessage :=
  let ref := content_reference (text_itemId c) (text_contentIndex c) in
  map (TextDelta ref) (yields (textChunks c)) ++ [Control (TextDone ref)].

Definition transcript_messages (c : RTAudioContent) : list WSMessage :=
  let ref := content_reference (audio_itemId c) (audio_contentIndex c) in
  map (TextDelta ref) (yields (transcriptChunks c)) ++ [Control (TextDone ref)].

Definition content_messages (c : Content) : list WSMessage :=
  match c with
  | TextContent t => text_messages t
  | AudioContent a => transcript_messages a
  | OtherContent _ => []
  end.

Definition content_frames (c : Content) : list Buffer :=
  match c with
  | AudioContent a => map buffer (yields (audioChunks a))
  | _ => []
  end.

Definition item_messages (i : Item) : list WSMessage :=
  match i with
  | MessageItem contents => flat_map content_messages (yields contents)
  | OtherItem _ => []
  end.

Definition item_frames (i : Item) : list Buffer :=
  match i with
  | MessageItem contents => flat_map content_frames (yields contents)
  | OtherItem _ => []
  end.

Definition event_messages (e : UpstreamEvent) : list WSMessage :=
  match e with
  | ResponseEvent items => flat_map item_messages (yields items)
  | InputAudioEvent i =>
      [Control SpeechStarted;
       Transcription (input_id i) (or_empty (transcription i))]
  | OtherEvent _ => []
  end.

Definition event_frames (e : UpstreamEvent) : list Buffer :=
  match e with
  | ResponseEvent items => flat_map item_frames (yields items)
  | _ => []
  end.

Definition ends_normally (e : option JsError) : bool :=
  match e with
  | None => true
  | Some _ => false
  end.

Definition content_drains (c : Content) : bool :=
  match c with
  | TextContent t => ends_normally (ending (textChunks t))
  | AudioContent a =>
      ends_normally (ending (audioChunks a))
      && ends_normally (ending (transcriptChunks a))
  | OtherContent _ => true
  end.

Definition item_drains (i : Item) : bool :=
  match i with
  | MessageItem contents =>
      forallb content_drains (yields contents) && ends_normally (ending contents)
  | OtherItem _ => true
  end.

Definition event_drains (e : UpstreamEvent) : bool :=
  match e with
  | ResponseEvent items =>
      forallb item_drains (yields items) && ends_normally (ending items)
  | InputAudioEvent i => ends_normally (completion i)
  | OtherEvent _ => true
  end.

(** The content references of the streams in a piece of upstream data,
    in the order they are handled. *)
Definition content_references (c : Content) : list string :=
  match c with
  | TextContent t => [content_reference (text_itemId t) (text_contentIndex t)]
  | AudioContent a => [content_reference (audio_itemId a) (audio_contentIndex a)]
  | OtherContent _ => []
  end.

Definition item_references (i : Item) : list string :=
  match i with
  | MessageItem contents => flat_map content_references (yields contents)
  | OtherItem _ => []
  end.

Definition event_references (e : UpstreamEvent) : list string :=
  match e with
  | ResponseEvent items => flat_map item_references (yields items)
  | _ => []
  end.

Definition references (events : Seq UpstreamEvent) : list string :=
  flat_map event_references (yields events).

(** How many of the references [refs] are [ref]. *)
Definition occurrences (ref : string) (refs : list string) : nat :=
  List.length (filter (fun r => String.eqb r ref) refs).

(** How many [text_done] messages for [ref] there are among [ms]. *)
Definition done_count (ref : string) (ms : list WSMessage) : nat :=
  List.length (filter (is_text_done ref) ms).

(** The greeting of [initialize]. *)
Definition greeting_message : WSMessage :=
  Control (Connected "You are now connected to the a expressjs server").

(** ** More vocabulary on traces *)

(** A log line at error level. *)
Definition is_error_log (e : Effect) : bool :=
  match e with
  | Log Error _ => true
  | _ => false
  end.

(** What the handlers of upstream events may do: write to the client's
    socket, anything but a greeting; log; await the completion of an input
    audio item.  No other call on the upstream, no close. *)
Definition relays (e : Effect) : Prop :=
  match e with
  | WsSend (Control (Connected _)) => False
  | WsSend _ => True
  | WsSendBinary _ => True
  | Log _ _ => True
  | Upstream (WaitForCompletion _) => True
  | UnhandledRejection _ => True
  | _ => False
  end.

(** What the handlers of client frames may do: log, and call the upstream,
    short of closing it.  They never write to the client's socket. *)
Definition forwards (e : Effect) : Prop :=
  match e with
  | Log _ _ => True
  | Upstream Close => False
  | Upstream _ => True
  | _ => False
  end.

(** The number of times the upstream connection was released. *)
Definition releases (es : list Effect) : nat :=
  List.length
    (filter (fun c => match c with Close => true | _ => false end)
       (upstream_calls es)).

(** The client's frames handled one after another, each handler run to its
    end before the next one starts: the schedule in which no frame arrives
    while a handler is suspended.  The socket does not await its listeners,
    so the handlers of text frames may interleave at their awaits; the
    handler of a binary frame makes its one call when the frame arrives, so
    for binary frames the order of the calls is this one on every
    schedule. *)
Definition handleFrames (toString_utf8 : Buffer -> string)
    (JSON_parse : string -> option JSON)
    (upstream_outcome : list Effect -> UpCall -> option JsError)
    (frames : list (Buffer * bool)) : M unit :=
  for_each
    (fun frame =>
       handleMessage toString_utf8 JSON_parse upstream_outcome
         (fst frame) (snd frame))
    frames.

(** What a text frame makes the session ask of the upstream, in the world
    [w]: nothing, unless the frame is a JSON object whose [type] is the
    string user_message; then an item with the object's [text] (as found,
    [undefined] when absent), and a response if the item was accepted. *)
Definition requested (toString_utf8 : Buffer -> string)
    (JSON_parse : string -> option JSON)
    (upstream_outcome : list Effect -> UpCall -> option JsError)
    (frame : Buffer) (w : World) : list UpCall :=
  match JSON_parse (toString_utf8 frame) with
  | Some (JObject fields) =>
      if strict_equals (own_property "type" fields) "user_message" then
        let text := own_property "text" fields in
        SendItem text
          :: match upstream_outcome
                     (trace w ++ [Log Debug "Received text message"])
                     (SendItem text) with
             | None => [GenerateResponse]
             | Some _ => []
             end
      else []
  | _ => []
  end.

(** The handler [m] always returns normally, having sent the client the
    messages [ms] and the binary frames [bs], in that order each, logged no
    error and left nothing running. *)
Definition delivers (m : M unit) (ms : list WSMessage) (bs : list Buffer) : Prop :=
  forall w, exists new,
    m w = (Ok tt, extend w new) /\
    messages new = ms /\
    binary_frames new = bs /\
    existsb is_error_log new = false.

(** Whether [body x] returns normally is decided by [ok x], in any world. *)
Definition decides {A} (body : A -> M unit) (ok : A -> bool) : Prop :=
  forall x w, fst (body x w) = Ok tt <-> ok x = true.

(** [m] is a shuffle of [l] and [r]: both keep their own order. *)
Inductive Shuffle {A} : list A -> list A -> list A -> Prop :=
| shuffle_nil : Shuffle [] [] []
| shuffle_left x l r m : Shuffle l r m -> Shuffle (x :: l) r (x :: m)
| shuffle_right y l r m : Shuffle l r m -> Shuffle l (y :: r) (y :: m).

(** * Properties *)

(** ** Lists *)

Lemma collect_app {A B} (f : A -> option B) (l1 l2 : list A) :
  collect f (l1 ++ l2) = collect f l1 ++ collect f l2.
Proof.
  induction l1 as [|x l1 IH]; simpl; [reflexivity|].
  destruct (f x); simpl; now rewrite IH.
Qed.

Lemma collect_map_some {A B C} (f : A -> option B) (g : C -> A) (h : C -> B) l :
  (forall x, f (g x) = Some (h x)) ->
  collect f (map g l) = map h l.
Proof.
  intros Hfg. induction l as [|x l IH]; simpl; [reflexivity|].
  now rewrite Hfg, IH.
Qed.

Lemma collect_none {A B} (f : A -> option B) l :
  Forall (fun x => f x = None) l -> collect f l = [].
Proof.
  induction 1 as [|x l Hx _ IH]; simpl; [reflexivity|].
  now rewrite Hx.
Qed.

Lemma shuffle_left_only {A} (l : list A) : Shuffle l [] l.
Proof. induction l; constructor; assumption. Qed.

Lemma shuffle_right_only {A} (r : list A) : Shuffle [] r r.
Proof. induction r; constructor; assumption. Qed.

Lemma shuffle_app {A} (l r : list A) : Shuffle l r (l ++ r).
Proof.
  induction l as [|x l IH]; simpl.
  - apply shuffle_right_only.
  - now constructor.
Qed.

Lemma shuffle_sym {A} (l r m : list A) : Shuffle l r m -> Shuffle r l m.
Proof. induction 1; constructor; assumption. Qed.

Lemma shuffle_prefix {A} (p l r m : list A) :
  Shuffle l r m -> Shuffle (p ++ l) r (p ++ m).
Proof. intros H. induction p; simpl; [assumption | now constructor]. Qed.

Lemma shuffle_Forall {A} (P : A -> Prop) (l r m : list A) :
  Shuffle l r m -> Forall P l -> Forall P r -> Forall P m.
Proof.
  induction 1 as [|x l r m _ IH|y l r m _ IH]; intros Hl Hr.
  - constructor.
  - inversion Hl; subst. constructor; auto.
  - inversion Hr; subst. constructor; auto.
Qed.

(** A projection that sees nothing of one side reads the other side off a
    shuffle unchanged. *)
Lemma shuffle_collect_left {A B} (f : A -> option B) (l r m : list A) :
  Shuffle l r m -> Forall (fun x => f x = None) r -> collect f m = collect f l.
Proof.
  induction 1 as [|x l r m _ IH|y l r m _ IH]; intros Hr; simpl.
  - reflexivity.
  - rewrite (IH Hr). reflexivity.
  - inversion Hr as [|? ? Hy Hr']; subst. rewrite Hy. auto.
Qed.

Lemma shuffle_collect_right {A B} (f : A -> option B) (l r m : list A) :
  Shuffle l r m -> Forall (fun x => f x = None) l -> collect f m = collect f r.
Proof. intros H. apply shuffle_collect_left. now apply shuffle_sym. Qed.

(** ** Running the primitives *)

Lemma extend_nil w : extend w [] = w.
Proof. destruct w; unfold extend; simpl. now rewrite app_nil_r. Qed.

Lemma extend_extend w a b : extend (extend w a) b = extend w (a ++ b).
Proof. unfold extend; simpl. now rewrite app_assoc. Qed.

Lemma grow_nil w new : grow w new [] = extend w new.
Proof. unfold grow, extend. now rewrite app_nil_r. Qed.

Lemma extend_grow w a later b :
  extend (grow w a later) b = grow w (a ++ b) later.
Proof. unfold extend, grow; simpl. now rewrite app_assoc. Qed.

Lemma grow_grow w a l1 b l2 :
  grow (grow w a l1) b l2 = grow w (a ++ b) (l1 ++ l2).
Proof. unfold grow; simpl. now rewrite !app_assoc. Qed.

Lemma emit_run e w : emit e w = (Ok tt, extend w [e]).
Proof. reflexivity. Qed.

Lemma record_effect_extend e w : record_effect e w = extend w [e].
Proof. reflexivity. Qed.

Lemma for_each_emit {A} (f : A -> Effect) xs w :
  for_each (fun x => emit (f x)) xs w = (Ok tt, extend w (map f xs)).
Proof.
  revert w. induction xs as [|x xs IH]; intros w; simpl.
  - unfold ret. now rewrite extend_nil.
  - unfold bind. rewrite emit_run, IH, extend_extend. reflexivity.
Qed.

Lemma for_await_emit {A} (f : A -> Effect) (s : Seq A) w :
  for_await s (fun x => emit (f x)) w
  = (outcome (ending s), extend w (map f (yields s))).
Proof.
  unfold for_await, bind. rewrite for_each_emit.
  destruct (ending s); reflexivity.
Qed.

(** ** The text handler, run *)

Lemma handleTextContent_run (content : RTTextContent) (w : World) :
  let ref := content_reference (text_itemId content) (text_contentIndex content) in
  let deltas :=
    map (fun text => WsSend (TextDelta ref text)) (yields (textChunks content)) in
  handleTextContent content w =
  match ending (textChunks content) with
  | None =>
      (Ok tt,
       extend w (deltas ++ [WsSend (Control (TextDone ref));
                            Log Debug "Text content processed successfully"]))
  | Some e =>
      (Throw e, extend w (deltas ++ [Log Error "Error handling text content"]))
  end.
Proof.
  intros ref deltas. unfold handleTextContent, try_catch, bind, send.
  rewrite (for_await_emit (fun text => WsSend (TextDelta ref text))).
  fold deltas. destruct (ending (textChunks content)); cbn [outcome].
  - unfold log, throw. rewrite emit_run, extend_extend. reflexivity.
  - unfold log. rewrite !emit_run, !extend_extend. reflexivity.
Qed.

(** ** The audio handler, run *)

Lemma first_settles_all r other others :
  before_settling (first_settles r other others)
    ++ after_settling (first_settles r other others) = others.
Proof. destruct r; simpl; [apply app_nil_r | reflexivity]. Qed.

(** Whatever the arrival order and however the two functions end, what
    they do before and after the joint promise settles is a shuffle of
    what each does on its own. *)
Lemma race_shuffle ra rt order : forall la lt,
  Shuffle la lt
    (before_settling (race ra rt order la lt)
       ++ after_settling (race ra rt order la lt)).
Proof.
  induction order as [|b rest IH]; intros la lt; simpl.
  - rewrite <- app_assoc, first_settles_all. apply shuffle_app.
  - destruct b.
    + destruct la as [|x la'].
      * rewrite first_settles_all. apply shuffle_right_only.
      * simpl. constructor. apply IH.
    + destruct lt as [|y lt'].
      * rewrite first_settles_all. apply shuffle_left_only.
      * simpl. constructor. apply IH.
Qed.

(** When both functions fulfil, so does the joint promise, with nothing
    left running. *)
Lemma race_both_fulfil order : forall la lt,
  joined_result (race (Ok tt) (Ok tt) order la lt) = Ok tt /\
  after_settling (race (Ok tt) (Ok tt) order la lt) = [].
Proof.
  induction order as [|b rest IH]; intros la lt; simpl.
  - split; reflexivity.
  - destruct b.
    + destruct la; simpl; [split; reflexivity | apply IH].
    + destruct lt; simpl; [split; reflexivity | apply IH].
Qed.

(** When one of them rejects, so does the joint promise. *)
Lemma race_rejects ra rt order : forall la lt,
  ra <> Ok tt \/ rt <> Ok tt ->
  exists e, joined_result (race ra rt order la lt) = Throw e.
Proof.
  assert (Hfs : forall r o others, r <> Ok tt \/ o <> Ok tt ->
            exists e, joined_result (first_settles r o others) = Throw e).
  { intros [[]|e] o others H; simpl; [|eauto].
    destruct o as [[]|e]; [|eauto]. destruct H; congruence. }
  induction order as [|b rest IH]; intros la lt H; simpl.
  - apply Hfs, H.
  - destruct b.
    + destruct la; simpl; [apply Hfs, H | apply IH, H].
    + destruct lt; simpl; [apply Hfs; tauto | apply IH, H].
Qed.

Lemma handleAudioChunks_alone content :
  in_isolation (handleAudioChunks content)
  = (audio_effects content, outcome (ending (audioChunks content))).
Proof.
  unfold in_isolation, handleAudioChunks, sendBinary.
  rewrite (for_await_emit (fun chunk => WsSendBinary (buffer chunk))).
  reflexivity.
Qed.

Lemma handleAudioTranscript_alone content :
  in_isolation (handleAudioTranscript content)
  = (transcript_effects content, outcome (ending (transcriptChunks content))).
Proof.
  unfold in_isolation, handleAudioTranscript, transcript_effects, bind, send.
  set (ref := content_reference _ _).
  rewrite (for_await_emit (fun chunk => WsSend (TextDelta ref chunk))).
  destruct (ending (transcriptChunks content)); cbn [outcome].
  - now rewrite app_nil_r.
  - rewrite emit_run. reflexivity.
Qed.

(** Neither consumer looks at the world it runs in, which is what lets
    [promise_all] run each on its own and interleave the results. *)
Lemma handleAudioChunks_anywhere content w :
  handleAudioChunks content w
  = (snd (in_isolation (handleAudioChunks content)),
     extend w (fst (in_isolation (handleAudioChunks content)))).
Proof.
  rewrite handleAudioChunks_alone. unfold handleAudioChunks, sendBinary.
  apply (for_await_emit (fun chunk => WsSendBinary (buffer chunk))).
Qed.

Lemma handleAudioTranscript_anywhere content w :
  handleAudioTranscript content w
  = (snd (in_isolation (handleAudioTranscript content)),
     extend w (fst (in_isolation (handleAudioTranscript content)))).
Proof.
  rewrite handleAudioTranscript_alone.
  unfold handleAudioTranscript, transcript_effects, bind, send.
  set (ref := content_reference _ _).
  rewrite (for_await_emit (fun chunk => WsSend (TextDelta ref chunk))).
  destruct (ending (transcriptChunks content)); cbn [outcome fst snd].
  - now rewrite app_nil_r.
  - rewrite emit_run, extend_extend. reflexivity.
Qed.

Lemma handleAudioContent_run (content : RTAudioContent) (w : World) :
  let j := audio_join content in
  handleAudioContent content w =
  (joined_result j,
   grow w
     (before_settling j
        ++ [match joined_result j with
            | Ok _ => Log Debug "Audio content processed successfully"
            | Throw _ => Log Error "Error handling audio content"
            end])
     (after_settling j)).
Proof.
  intros j. unfold handleAudioContent, try_catch, bind, promise_all.
  rewrite handleAudioChunks_alone, handleAudioTranscript_alone.
  fold (audio_join content). fold j.
  destruct (joined_result j) as [[]|e]; unfold log, throw;
    rewrite emit_run; unfold extend, grow; simpl; rewrite <- ?app_assoc; reflexivity.
Qed.

(** ** What the projections see of each consumer *)

Lemma messages_of_deltas ref (chunks : list string) :
  messages (map (fun text => WsSend (TextDelta ref text)) chunks)
  = map (TextDelta ref) chunks.
Proof. unfold messages. apply collect_map_some. reflexivity. Qed.

Lemma no_binary_in_deltas ref (chunks : list string) :
  binary_frames (map (fun text => WsSend (TextDelta ref text)) chunks) = [].
Proof.
  unfold binary_frames. apply collect_none, Forall_map, Forall_forall.
  reflexivity.
Qed.

Lemma binary_frames_of_audio content :
  binary_frames (audio_effects content)
  = map buffer (yields (audioChunks content)).
Proof. unfold binary_frames, audio_effects. apply collect_map_some. reflexivity. Qed.

Lemma audio_effects_no_message content :
  Forall (fun e => match e with WsSend m => Some m | _ => None end = None)
    (audio_effects content).
Proof. unfold audio_effects. apply Forall_map, Forall_forall. reflexivity. Qed.

Lemma transcript_effects_no_binary content :
  Forall (fun e => match e with WsSendBinary b => Some b | _ => None end = None)
    (transcript_effects content).
Proof.
  unfold transcript_effects. apply Forall_app. split.
  - apply Forall_map, Forall_forall. reflexivity.
  - destruct (ending (transcriptChunks content)); repeat constructor.
Qed.

Lemma messages_of_transcript content :
  let ref := content_reference (audio_itemId content) (audio_contentIndex content) in
  messages (transcript_effects content)
  = map (TextDelta ref) (yields (transcriptChunks content))
      ++ completion_marker ref (ending (transcriptChunks content)).
Proof.
  intros ref. unfold transcript_effects. fold ref.
  unfold messages. rewrite collect_app. fold messages.
  rewrite messages_of_deltas.
  destruct (ending (transcriptChunks content)); reflexivity.
Qed.

(** What the client receives of an audio entry, once both consumers are
    through: the audio consumer's frames and the transcript consumer's
    messages, each in its own order. *)
Lemma audio_join_frames content :
  let j := audio_join content in
  binary_frames (before_settling j ++ after_settling j)
    = binary_frames (audio_effects content) /\
  messages (before_settling j ++ after_settling j)
    = messages (transcript_effects content).
Proof.
  intros j.
  pose proof (race_shuffle (outcome (ending (audioChunks content)))
                (outcome (ending (transcriptChunks content)))
                (arrival content) (audio_effects content)
                (transcript_effects content)) as Hs.
  fold (audio_join content) in Hs. fold j in Hs. split.
  - apply (shuffle_collect_left _ Hs), transcript_effects_no_binary.
  - apply (shuffle_collect_right _ Hs), audio_effects_no_message.
Qed.

Lemma observed_around_log {B} (f : Effect -> option B) lvl msg
      (before after : list Effect) :
  f (Log lvl msg) = None ->
  collect f ((before ++ [Log lvl msg]) ++ after) = collect f (before ++ after).
Proof.
  intros Hf. rewrite !collect_app. simpl. rewrite Hf, app_nil_r. reflexivity.
Qed.

Lemma handleAudioContent_observed (content : RTAudioContent) (w : World) :
  let ref := content_reference (audio_itemId content) (audio_contentIndex content) in
  let j := audio_join content in
  exists new,
    handleAudioContent content w
      = (joined_result j, grow w new (after_settling j)) /\
    binary_frames (new ++ after_settling j)
      = map buffer (yields (audioChunks content)) /\
    messages (new ++ after_settling j)
      = map (TextDelta ref) (yields (transcriptChunks content))
          ++ completion_marker ref (ending (transcriptChunks content)).
Proof.
  intros ref j. rewrite handleAudioContent_run. fold j.
  destruct (audio_join_frames content) as [Hb Hm]. fold j in Hb, Hm.
  eexists. split; [reflexivity|].
  unfold binary_frames, messages.
  destruct (joined_result j); rewrite !observed_around_log by reflexivity;
    fold binary_frames; fold messages;
    rewrite Hb, Hm, binary_frames_of_audio, messages_of_transcript; auto.
Qed.

(** ** Effects confined to a class *)

Section Confined.
Variable P : Effect -> Prop.

Lemma grow_nothing w : grow w [] [] = w.
Proof. destruct w; unfold grow; simpl. now rewrite !app_nil_r. Qed.

Lemma confined_ret {A} (a : A) : confined P (ret a).
Proof. intros w. exists [], []. simpl. now rewrite grow_nothing. Qed.

Lemma confined_throw {A} e : confined P (@throw A e).
Proof. intros w. exists [], []. simpl. now rewrite grow_nothing. Qed.

Lemma confined_emit e : P e -> confined P (emit e).
Proof.
  intros He w. exists [e], []. simpl. split; [|auto].
  unfold record_effect, grow. now rewrite app_nil_r.
Qed.

Lemma confined_bind {A B} (m : M A) (k : A -> M B) :
  confined P m -> (forall a, confined P (k a)) -> confined P (bind m k).
Proof.
  intros Hm Hk w. unfold bind.
  destruct (Hm w) as (n1 & l1 & E1 & Pn1 & Pl1).
  destruct (m w) as [[a|e] w1]; simpl in E1; subst w1.
  - destruct (Hk a (grow w n1 l1)) as (n2 & l2 & E2 & Pn2 & Pl2).
    exists (n1 ++ n2), (l1 ++ l2). rewrite E2, grow_grow.
    repeat split; apply Forall_app; auto.
  - exists n1, l1. auto.
Qed.

Lemma confined_try_catch {A} (body : M A) (handler : JsError -> M A) :
  confined P body -> (forall e, confined P (handler e)) ->
  confined P (try_catch body handler).
Proof.
  intros Hm Hk w. unfold try_catch.
  destruct (Hm w) as (n1 & l1 & E1 & Pn1 & Pl1).
  destruct (body w) as [[a|e] w1]; simpl in E1; subst w1.
  - exists n1, l1. auto.
  - destruct (Hk e (grow w n1 l1)) as (n2 & l2 & E2 & Pn2 & Pl2).
    exists (n1 ++ n2), (l1 ++ l2). rewrite E2, grow_grow.
    repeat split; apply Forall_app; auto.
Qed.

Lemma confined_for_each {A} (body : A -> M unit) xs :
  (forall x, confined P (body x)) -> confined P (for_each body xs).
Proof.
  intros Hb. induction xs as [|x xs IH]; simpl.
  - apply confined_ret.
  - apply confined_bind; auto.
Qed.

Lemma confined_finish e : confined P (finish e).
Proof. destruct e; [apply confined_throw | apply confined_ret]. Qed.

Lemma confined_for_await {A} (s : Seq A) (body : A -> M unit) :
  (forall x, confined P (body x)) -> confined P (for_await s body).
Proof.
  intros Hb. apply confined_bind.
  - now apply confined_for_each.
  - intros _. apply confined_finish.
Qed.

Lemma confined_detached (m : M unit) :
  (forall e, P (UnhandledRejection e)) -> confined P m -> confined P (detached m).
Proof.
  intros HP Hm w. unfold detached.
  destruct (Hm w) as (n1 & l1 & E1 & Pn1 & Pl1).
  destruct (m w) as [[a|e] w1]; simpl in E1; subst w1.
  - exists n1, l1. auto.
  - exists (n1 ++ [UnhandledRejection e]), l1. simpl. split; [|split]; auto.
    + unfold record_effect, grow. simpl. now rewrite app_assoc.
    + apply Forall_app; auto.
Qed.

Lemma confined_alone (m : M unit) :
  confined P m -> Forall P (fst (in_isolation m)).
Proof.
  intros Hm. unfold in_isolation.
  destruct (Hm empty_world) as (n1 & l1 & E1 & Pn1 & _).
  destruct (m empty_world) as [r w1]; simpl in *. subst w1. assumption.
Qed.

Lemma confined_promise_all order (a t : M unit) :
  confined P a -> confined P t -> confined P (promise_all order a t).
Proof.
  intros Ha Ht w. unfold promise_all.
  pose proof (confined_alone Ha) as Pa. pose proof (confined_alone Ht) as Pt.
  destruct (in_isolation a) as [la ra]. destruct (in_isolation t) as [lt rt].
  simpl in Pa, Pt.
  pose proof (shuffle_Forall (race_shuffle ra rt order la lt) Pa Pt) as Pj.
  apply Forall_app in Pj. destruct Pj as [Pb Pl].
  eexists _, _. simpl. split; [reflexivity | auto].
Qed.

End Confined.

(** ** Nothing in the event loop closes the session *)

Ltac stays_open :=
  cbv zeta;
  repeat first
    [ apply confined_try_catch; [|intros ?]
    | apply confined_for_await; intros ?
    | apply confined_for_each; intros ?
    | apply confined_bind; [|intros ?]
    | apply confined_promise_all
    | apply confined_emit; reflexivity
    | apply confined_ret
    | apply confined_throw
    | apply confined_finish ].

Lemma handleTextContent_stays_open content :
  confined keeps_open (handleTextContent content).
Proof. unfold handleTextContent, send, log. stays_open. Qed.

Lemma handleAudioContent_stays_open content :
  confined keeps_open (handleAudioContent content).
Proof.
  unfold handleAudioContent, handleAudioChunks, handleAudioTranscript,
    send, sendBinary, log.
  stays_open.
Qed.

Lemma handleResponse_stays_open event :
  confined keeps_open (handleResponse event).
Proof.
  unfold handleResponse, log. stays_open.
  destruct x as [contents|]; simpl; stays_open.
  destruct x as [c|c|]; simpl;
    [apply handleTextContent_stays_open
    |apply handleAudioContent_stays_open
    |apply confined_ret].
Qed.

Lemma handleInputAudio_stays_open event :
  confined keeps_open (handleInputAudio event).
Proof. unfold handleInputAudio, waitForCompletion, send, log. stays_open. Qed.

Lemma startEventLoop_stays_open events :
  confined keeps_open (startEventLoop events).
Proof.
  unfold startEventLoop, log. stays_open.
  destruct x as [e|e|]; simpl;
    [apply handleResponse_stays_open
    |apply handleInputAudio_stays_open
    |apply confined_ret].
Qed.

Unset Implicit Arguments.

(** ** Loops stop at the first failure *)

Lemma for_await_stops {A} (body : A -> M unit) (pre : list A) (x : A)
      (post : list A) (e' : option JsError) (w w1 w2 : World) (e : JsError) :
  for_each body pre w = (Ok tt, w1) ->
  body x w1 = (Throw e, w2) ->
  for_await (mkSeq (pre ++ x :: post) e') body w = (Throw e, w2).
Proof.
  intros Hpre Hx. unfold for_await, bind. cbn [yields].
  replace (for_each body (pre ++ x :: post) w) with (@Throw unit e, w2);
    [reflexivity|].
  revert w Hpre. induction pre as [|p pre IH]; intros w Hpre; simpl in *.
  - injection Hpre as <-. unfold bind. rewrite Hx. reflexivity.
  - unfold bind in *. destruct (body p w) as [[[]|e0] w0]; [|discriminate].
    apply IH, Hpre.
Qed.

Lemma for_await_stops_at_first {A} (body : A -> M unit) (x : A)
      (post : list A) (e' : option JsError) (w w2 : World) (e : JsError) :
  body x w = (Throw e, w2) ->
  for_await (mkSeq (x :: post) e') body w = (Throw e, w2).
Proof. intros Hx. now apply (for_await_stops body [] x post e' w w w2 e). Qed.

(** ** The client-side handlers *)

Section SessionFacts.
Variable toString_utf8 : Buffer -> string.
Variable JSON_parse : string -> option JSON.
Variable upstream_outcome : list Effect -> UpCall -> option JsError.

Lemma upstream_run c w :
  upstream upstream_outcome c w
  = (outcome (upstream_outcome (trace w) c), extend w [Upstream c]).
Proof. unfold upstream. destruct (upstream_outcome (trace w) c); reflexivity. Qed.

Lemma confined_upstream (P : Effect -> Prop) c :
  P (Upstream c) -> confined P (upstream upstream_outcome c).
Proof.
  intros Hc w. exists [Upstream c], []. simpl. split; [|auto].
  unfold record_effect, grow. now rewrite app_nil_r.
Qed.

Lemma confined_parse (P : Effect -> Prop) text : confined P (parse JSON_parse text).
Proof.
  unfold parse. destruct (JSON_parse text); [apply confined_ret | apply confined_throw].
Qed.

Lemma confined_get_property (P : Effect -> Prop) v k : confined P (get_property v k).
Proof. destruct v; simpl; (apply confined_ret || apply confined_throw). Qed.

Lemma handleMessage_stays_open message isBinary :
  confined keeps_open
    (handleMessage toString_utf8 JSON_parse upstream_outcome message isBinary).
Proof.
  unfold handleMessage. apply confined_try_catch.
  - destruct isBinary.
    + unfold handleBinaryMessage, log.
      apply confined_try_catch; [|intros e; stays_open].
      apply confined_upstream. reflexivity.
    + unfold handleTextMessage, log. cbv zeta.
      apply confined_bind; [apply confined_parse | intros parsed].
      apply confined_bind; [apply confined_get_property | intros type].
      apply confined_bind; [apply confined_emit; reflexivity | intros _].
      destruct (strict_equals type "user_message"); [|apply confined_ret].
      apply confined_try_catch; [|intros e; stays_open].
      apply confined_bind; [apply confined_get_property | intros text].
      apply confined_bind; [apply confined_upstream; reflexivity | intros _].
      apply confined_bind; [apply confined_upstream; reflexivity | intros _].
      apply confined_emit; reflexivity.
  - intros e. unfold log. apply confined_emit. reflexivity.
Qed.

Lemma initialize_stays_open events :
  confined keeps_open (initialize upstream_outcome events).
Proof.
  unfold initialize, send, log. cbv zeta.
  apply confined_bind; [apply confined_emit; reflexivity | intros _].
  apply confined_bind; [apply confined_upstream; reflexivity | intros _].
  apply confined_bind; [apply confined_emit; reflexivity | intros _].
  apply confined_bind; [apply confined_emit; reflexivity | intros _].
  apply confined_bind; [apply confined_emit; reflexivity | intros _].
  apply confined_detached; [reflexivity | apply startEventLoop_stays_open].
Qed.

(** A frame that is not JSON: the handler throws before doing anything. *)
Lemma handleTextMessage_not_json message w :
  JSON_parse (toString_utf8 message) = None ->
  handleTextMessage toString_utf8 JSON_parse upstream_outcome message w
  = (Throw (SyntaxError "Unexpected token in JSON"), w).
Proof.
  intros Hp. unfold handleTextMessage, bind, parse. rewrite Hp. reflexivity.
Qed.

(** A user message: it is forwarded, and a response requested if the
    forwarding succeeded. *)
Lemma handleTextMessage_user_message message fields w :
  JSON_parse (toString_utf8 message) = Some (JObject fields) ->
  own_property "type" fields = Some (JString "user_message") ->
  let text := own_property "text" fields in
  let w1 := extend w [Log Debug "Received text message"] in
  let w2 := extend w1 [Upstream (SendItem text)] in
  let w3 := extend w2 [Upstream GenerateResponse] in
  handleTextMessage toString_utf8 JSON_parse upstream_outcome message w
  = match upstream_outcome (trace w1) (SendItem text) with
    | Some e => (Throw e, extend w2 [Log Error "Failed to process user message"])
    | None =>
        match upstream_outcome (trace w2) GenerateResponse with
        | Some e => (Throw e, extend w3 [Log Error "Failed to process user message"])
        | None => (Ok tt, extend w3 [Log Debug "User message processed successfully"])
        end
    end.
Proof.
  intros Hp Ht text w1 w2 w3.
  unfold handleTextMessage, bind, parse, try_catch. rewrite Hp.
  cbn [get_property ret]. rewrite Ht.
  replace (strict_equals (Some (JString "user_message")) "user_message")
    with true by reflexivity.
  unfold log. rewrite emit_run. fold w1.
  rewrite upstream_run. fold text. fold w2.
  destruct (upstream_outcome (trace w1) (SendItem text)); cbn [outcome].
  - rewrite emit_run. reflexivity.
  - rewrite upstream_run. fold w3.
    destruct (upstream_outcome (trace w2) GenerateResponse); cbn [outcome];
      rewrite emit_run; reflexivity.
Qed.

(** Whatever happens inside, [handleMessage] returns normally. *)
Lemma handleMessage_never_throws message isBinary w :
  fst (handleMessage toString_utf8 JSON_parse upstream_outcome message isBinary w)
  = Ok tt.
Proof.
  unfold handleMessage, try_catch.
  destruct ((if isBinary then handleBinaryMessage upstream_outcome message
             else handleTextMessage toString_utf8 JSON_parse upstream_outcome message) w)
    as [[[]|e] w1]; reflexivity.
Qed.

(** [handleClose] is where the upstream is released, and it never throws. *)
Lemma handleClose_releases w :
  exists new,
    handleClose upstream_outcome w
    = (Ok tt, extend w (Log Info "Session closing" :: Upstream Close :: new)).
Proof.
  unfold handleClose, bind, try_catch, log. rewrite emit_run, upstream_run.
  destruct (upstream_outcome _ Close); cbn [outcome];
    rewrite emit_run, !extend_extend; eexists; reflexivity.
Qed.

(** A failed [sendAudio] is logged and rethrown by [handleBinaryMessage]. *)
Lemma handleBinaryMessage_send_fails (message : Buffer) (w : World) (e : JsError) :
  upstream_outcome (trace w) (SendAudio message) = Some e ->
  handleBinaryMessage upstream_outcome message w
  = (Throw e, extend w [Upstream (SendAudio message);
                        Log Error "Failed to send audio data"]).
Proof.
  intros Hfail. unfold handleBinaryMessage, try_catch, bind, log.
  rewrite upstream_run, Hfail. cbn [outcome].
  rewrite emit_run, extend_extend. reflexivity.
Qed.

End SessionFacts.

(** * The claims *)

(** The claims on one handler come first.  C1 and C5, on whole runs of the
    session, follow the lemmas they rest on, further down. *)

(** ** C2: text chunks are relayed in order and then marked done *)

(** C2.  For every finite sequence of text chunks [c1..cn] of one text
    content entry (a sequence that ends normally), the text handler sends
    the client exactly the messages [text_delta c1, .., text_delta cn], in
    that order and each with the entry's content reference, followed by one
    [text_done] with the same reference; it sends no binary frame, besides
    the messages it only writes a debug log line, and it returns
    normally. *)
Theorem text_chunks_relayed_in_order :
  forall (itemId : string) (contentIndex : N) (chunks : list string) (w : World),
    let ref := content_reference itemId contentIndex in
    let new :=
      map (fun c => WsSend (TextDelta ref c)) chunks
        ++ [WsSend (Control (TextDone ref));
            Log Debug "Text content processed successfully"] in
    handleTextContent (mkText itemId contentIndex (mkSeq chunks None)) w
      = (Ok tt, extend w new) /\
    messages new = map (TextDelta ref) chunks ++ [Control (TextDone ref)] /\
    binary_frames new = [].
Proof.
  intros itemId contentIndex chunks w ref new. split; [|split].
  - apply (handleTextContent_run (mkText itemId contentIndex (mkSeq chunks None))).
  - unfold new, messages. rewrite collect_app. fold messages.
    rewrite messages_of_deltas. reflexivity.
  - unfold new, binary_frames. rewrite collect_app. fold binary_frames.
    rewrite no_binary_in_deltas. reflexivity.
Qed.

(** ** C3: malformed client JSON is dropped and the session goes on *)

(** C3.  A client text frame that is not valid JSON does not end the
    session: [handleMessage] returns normally, having only logged the error
    (no upstream call, no message to the client, nothing left running), and
    a well-formed [user_message] frame that follows is forwarded to the
    upstream as a conversation item; when that forwarding succeeds a
    response is requested. *)
Theorem malformed_frame_is_dropped :
  forall (toString_utf8 : Buffer -> string) (JSON_parse : string -> option JSON)
         (upstream_outcome : list Effect -> UpCall -> option JsError)
         (frame next : Buffer) (fields : list (string * JSON)) (w : World),
    JSON_parse (toString_utf8 frame) = None ->
    JSON_parse (toString_utf8 next) = Some (JObject fields) ->
    own_property "type" fields = Some (JString "user_message") ->
    let handle := handleMessage toString_utf8 JSON_parse upstream_outcome in
    let w1 := extend w [Log Error "Error handling message"] in
    let text := own_property "text" fields in
    handle frame false w = (Ok tt, w1) /\
    upstream_calls (trace w1) = upstream_calls (trace w) /\
    messages (trace w1) = messages (trace w) /\
    exists rest,
      handle next false w1
      = (Ok tt,
         extend w1 (Log Debug "Received text message"
                      :: Upstream (SendItem text) :: rest)) /\
      match upstream_outcome (trace w1 ++ [Log Debug "Received text message"])
              (SendItem text) with
      | None => exists rest', rest = Upstream GenerateResponse :: rest'
      | Some _ => rest = [Log Error "Failed to process user message";
                          Log Error "Error handling message"]
      end.
Proof.
  intros toS parse up frame next fields w Hbad Hgood Htype handle w1 text.
  split; [|split; [|split]].
  - unfold handle, handleMessage, try_catch.
    rewrite (handleTextMessage_not_json _ _ _ _ _ Hbad). reflexivity.
  - unfold w1, upstream_calls. simpl. rewrite collect_app. simpl.
    apply app_nil_r.
  - unfold w1, messages. simpl. rewrite collect_app. simpl. apply app_nil_r.
  - unfold handle, handleMessage, try_catch.
    rewrite (handleTextMessage_user_message _ _ up _ _ w1 Hgood Htype).
    fold text. cbn [extend trace].
    destruct (up (trace w1 ++ [Log Debug "Received text message"]) (SendItem text)).
    + eexists. split; [|reflexivity].
      unfold log. rewrite emit_run, !extend_extend. reflexivity.
    + destruct (up _ GenerateResponse).
      * eexists. split; [|eexists; reflexivity].
        unfold log. rewrite emit_run, !extend_extend. reflexivity.
      * eexists. split; [|eexists; reflexivity].
        rewrite !extend_extend. reflexivity.
Qed.

(** C3 at work: the frame [malformed_frame] is refused by the reader, the
    frame [user_message_frame] is the user message of the specification. *)
Lemma malformed_frame_is_dropped_witness :
  (JsonText.parse_json (utf8 malformed_frame) = None /\
   JsonText.parse_json (utf8 user_message_frame)
     = Some (JObject [("type", JString "user_message");
                      ("id", JString "m1");
                      ("text", JString "hello")])) /\
  handleMessage utf8 JsonText.parse_json upstream_healthy malformed_frame false
    empty_world
  = (Ok tt, mkWorld [Log Error "Error handling message"] []).
Proof.
  split; [split; vm_compute; reflexivity|].
  apply (malformed_frame_is_dropped utf8 JsonText.parse_json upstream_healthy
           malformed_frame user_message_frame
           [("type", JString "user_message"); ("id", JString "m1");
            ("text", JString "hello")] empty_world);
    vm_compute; reflexivity.
Defined.

(** ** C4: what makes decoding fail *)

(** C4, as amended.  As stated the claim fails: a JSON object without a
    [type] field is not a decoding error.  What holds: decoding a client
    text frame fails exactly when the frame is not valid JSON or is the
    JSON value [null]; any other document is decoded, and unless its
    [type] is the string [user_message] (a missing [type] included) it is
    logged at debug level and ignored, without error and without any
    upstream call. *)
Theorem decoding_fails_on_bad_json_or_null :
  forall (toString_utf8 : Buffer -> string) (JSON_parse : string -> option JSON)
         (upstream_outcome : list Effect -> UpCall -> option JsError)
         (frame : Buffer) (w : World),
    let run :=
      handleTextMessage toString_utf8 JSON_parse upstream_outcome frame w in
    (decode_fails toString_utf8 JSON_parse frame <->
     JSON_parse (toString_utf8 frame) = None \/
     JSON_parse (toString_utf8 frame) = Some JNull) /\
    match JSON_parse (toString_utf8 frame) with
    | None => run = (Throw (SyntaxError "Unexpected token in JSON"), w)
    | Some JNull => run = (Throw (TypeError "Cannot read properties of null"), w)
    | Some (JObject fields) =>
        if strict_equals (own_property "type" fields) "user_message"
        then exists r rest,
               run = (r, extend w (Log Debug "Received text message"
                                     :: Upstream (SendItem (own_property "text" fields))
                                     :: rest))
        else run = (Ok tt, extend w [Log Debug "Received text message"])
    | Some _ => run = (Ok tt, extend w [Log Debug "Received text message"])
    end.
Proof.
  intros toS jp up frame w run. split.
  - unfold decode_fails, handleTextMessage, bind, parse.
    destruct (jp (toS frame)) as [v|].
    + split.
      * intros [e He]. right. f_equal.
        destruct v; try reflexivity; cbn in He;
          try (destruct (String.eqb _ _)); try discriminate;
          destruct (strict_equals _ _); cbn in He; discriminate.
      * intros [H|H]; [discriminate|]. injection H as ->.
        eexists. reflexivity.
    + split; [auto | intros _; eexists; reflexivity].
  - unfold run, handleTextMessage, bind, parse.
    destruct (jp (toS frame)) as [v|]; [|reflexivity].
    destruct v; try reflexivity.
    cbn [get_property ret]. unfold log. rewrite emit_run.
    destruct (strict_equals (own_property "type" fields) "user_message");
      [|reflexivity].
    unfold try_catch, bind. cbn [get_property ret]. rewrite upstream_run.
    destruct (up _ (SendItem _)); cbn [outcome].
    + rewrite emit_run, !extend_extend. eexists _, _. reflexivity.
    + rewrite upstream_run.
      destruct (up _ GenerateResponse); cbn [outcome];
        rewrite emit_run, !extend_extend; eexists _, _; reflexivity.
Qed.

(** C4, the claim as stated refuted.  The frame [untyped_frame] is valid
    JSON, an object with no [type] field, and decoding it does not fail:
    the handler logs it and ignores it. *)
Lemma missing_type_is_not_an_error :
  lacks_discriminant utf8 JsonText.parse_json untyped_frame /\
  ~ decode_fails utf8 JsonText.parse_json untyped_frame /\
  handleTextMessage utf8 JsonText.parse_json upstream_healthy untyped_frame
    empty_world
  = (Ok tt, mkWorld [Log Debug "Received text message"] []).
Proof.
  split; [|split].
  - exists [("id", JString "m1")]. split; vm_compute; reflexivity.
  - intros [e He]. vm_compute in He. discriminate.
  - vm_compute. reflexivity.
Qed.

(** ** C6: a failed configuration *)

(** C6, as amended.  As stated the claim fails: nothing releases the
    upstream connection when its configuration fails.  What holds: when
    [configure] fails, [initialize] rejects with that error right after the
    call, so no [connected] message is sent and the event loop is not
    started, and nothing is torn down; the constructor does not await
    [initialize], so the rejection stays unhandled. *)
Theorem configuration_failure_stops_initialization :
  forall (upstream_outcome : list Effect -> UpCall -> option JsError)
         (backend : option string) (events : Seq UpstreamEvent)
         (w : World) (e : JsError),
    (forall history,
       upstream_outcome history (Configure session_options) = Some e) ->
    let attempt :=
      [Log Debug "Configuring realtime session";
       Upstream (Configure session_options)] in
    initialize upstream_outcome events w = (Throw e, extend w attempt) /\
    greeted attempt = false /\
    event_loop_started attempt = false /\
    tearing_down attempt = false /\
    construct upstream_outcome backend events w
    = (Ok tt,
       extend w ([Log Debug "Initializing RT client";
                  Log Debug "Client configured successfully";
                  Log Info "New session created"]
                   ++ attempt ++ [UnhandledRejection e])).
Proof.
  intros up backend events w e Hfail attempt.
  assert (Hinit : forall w0,
            initialize up events w0 = (Throw e, extend w0 attempt)).
  { intros w0. unfold initialize, bind, log.
    rewrite emit_run, upstream_run, Hfail. cbn [outcome].
    rewrite extend_extend. reflexivity. }
  repeat split; try reflexivity.
  - apply Hinit.
  - unfold construct, initializeClient, setupEventHandlers, bind, detached, log.
    rewrite emit_run.
    destruct backend as [b|]; [destruct (String.eqb b "azure")|];
      cbn [ret]; rewrite !emit_run, Hinit;
      rewrite record_effect_extend, !extend_extend; reflexivity.
Qed.

(** C6 at work: an upstream that refuses every configuration. *)
Lemma configuration_failure_stops_initialization_witness :
  (forall history,
     upstream_refuses_configuration history (Configure session_options)
     = Some (Rejected "configuration refused")) /\
  initialize upstream_refuses_configuration broken_stream_events empty_world
  = (Throw (Rejected "configuration refused"),
     mkWorld [Log Debug "Configuring realtime session";
              Upstream (Configure session_options)] []).
Proof.
  split; [reflexivity|].
  apply (configuration_failure_stops_initialization
           upstream_refuses_configuration None broken_stream_events empty_world
           (Rejected "configuration refused")).
  reflexivity.
Defined.

(** C6, the claim as stated refuted.  The upstream cannot be configured;
    the session is constructed, the only call ever made on the upstream is
    [configure], and nothing closes the socket or releases the upstream:
    the failure ends as an unhandled rejection. *)
Lemma failed_configuration_releases_nothing :
  let w :=
    snd (construct upstream_refuses_configuration None broken_stream_events
           empty_world) in
  upstream_calls (settled w) = [Configure session_options] /\
  tearing_down (settled w) = false /\
  greeted (settled w) = false /\
  In (UnhandledRejection (Rejected "configuration refused")) (settled w).
Proof. vm_compute. repeat split; try reflexivity. auto 10. Qed.

(** ** C7: audio entries *)








(** ** C8: input audio *)

(** C8.  For every [input_audio] event the session first sends
    [speech_started] (a control message without id), then awaits the
    item's completion, and when the upstream signals it sends one
    [transcription] message with the item's id and its text, the empty
    string standing for a missing transcription; when the wait fails
    instead, it logs and rethrows. *)
Theorem input_audio_dispatched :
  forall (event : RTInputAudioItem) (w : World),
    handleInputAudio event w
    = match completion event with
      | None =>
          (Ok tt,
           extend w [WsSend (Control SpeechStarted);
                     Upstream (WaitForCompletion (input_id event));
                     WsSend (Transcription (input_id event)
                               (or_empty (transcription event)));
                     Log Debug "Input audio processed successfully"])
      | Some e =>
          (Throw e,
           extend w [WsSend (Control SpeechStarted);
                     Upstream (WaitForCompletion (input_id event));
                     Log Error "Error handling input audio"])
      end /\
    message_id (Control SpeechStarted) = None /\
    or_empty None = "" /\
    (forall s, or_empty (Some s) = s).
Proof.
  intros event w. repeat split.
  unfold handleInputAudio, waitForCompletion, try_catch, bind, send, log.
  rewrite !emit_run.
  destruct (completion event); cbn [finish throw ret emit];
    rewrite ?record_effect_extend, !extend_extend; reflexivity.
Qed.

(** ** C9: one reference per stream *)

(** C9.  For a content entry with item id I and content index K, every
    message of its stream, each [text_delta] and the [text_done], carries
    the same id: the string made of I, a dash and the decimal numeral of K.
    This holds for a text entry and for the transcript of an audio entry
    under every order of delivery, however far the stream gets.  In
    particular every message of an entry of item A1 at index 2 has the id
    A1-2. *)
Theorem content_reference_stable :
  forall (text : RTTextContent) (audio : RTAudioContent) (w : World),
    (exists new,
       snd (handleTextContent text w) = extend w new /\
       Forall (fun m =>
                 message_id m
                 = Some (text_itemId text ++ "-"
                           ++ NilZero.string_of_uint
                                (N.to_uint (text_contentIndex text)))%string)
         (messages new)) /\
    (exists new later,
       snd (handleAudioContent audio w) = grow w new later /\
       Forall (fun m =>
                 message_id m
                 = Some (audio_itemId audio ++ "-"
                           ++ NilZero.string_of_uint
                                (N.to_uint (audio_contentIndex audio)))%string)
         (messages (new ++ later))) /\
    (forall (chunks : Seq string),
        exists new,
          snd (handleTextContent (mkText "A1" 2 chunks) w) = extend w new /\
          Forall (fun m => message_id m = Some "A1-2") (messages new)) /\
    (forall (chunks : Seq AudioChunk) (transcript : Seq string)
            (order : list Branch),
        exists new later,
          snd (handleAudioContent (mkAudio "A1" 2 chunks transcript order) w)
          = grow w new later /\
          Forall (fun m => message_id m = Some "A1-2") (messages (new ++ later))).
Proof.
  assert (Htext : forall (text : RTTextContent) (w : World),
    exists new,
      snd (handleTextContent text w) = extend w new /\
      Forall (fun m =>
                message_id m
                = Some (text_itemId text ++ "-"
                          ++ NilZero.string_of_uint
                               (N.to_uint (text_contentIndex text)))%string)
        (messages new)).
  { intros text w. rewrite handleTextContent_run.
    destruct (ending (textChunks text)); eexists; (split; [reflexivity|]);
      unfold messages; rewrite collect_app; fold messages;
      rewrite messages_of_deltas; apply Forall_app; split;
      try (apply Forall_map, Forall_forall; reflexivity);
      repeat constructor. }
  assert (Haudio : forall (audio : RTAudioContent) (w : World),
    exists new later,
      snd (handleAudioContent audio w) = grow w new later /\
      Forall (fun m =>
                message_id m
                = Some (audio_itemId audio ++ "-"
                          ++ NilZero.string_of_uint
                               (N.to_uint (audio_contentIndex audio)))%string)
        (messages (new ++ later))).
  { intros audio w.
    destruct (handleAudioContent_observed audio w) as (new & Hrun & _ & Hm).
    exists new, (after_settling (audio_join audio)).
    rewrite Hrun, Hm. split; [reflexivity|].
    apply Forall_app; split.
    - apply Forall_map, Forall_forall. reflexivity.
    - destruct (ending (transcriptChunks audio)); repeat constructor. }
  intros text audio w.
  split; [apply Htext|]. split; [apply Haudio|]. split.
  - intros chunks. exact (Htext (mkText "A1" 2 chunks) w).
  - intros chunks transcript order.
    exact (Haudio (mkAudio "A1" 2 chunks transcript order) w).
Qed.

(** ** C10: empty streams *)

(** C10.  A text content entry whose chunk sequence yields nothing still
    gets exactly one [text_done] with its content reference and no
    [text_delta]; the same holds for an audio content entry whose
    transcript sequence yields nothing, whatever its audio sequence does
    and in whatever order the two are delivered. *)
Theorem empty_stream_still_done :
  forall (itemId : string) (contentIndex : N) (audio : Seq AudioChunk)
         (order : list Branch) (w : World),
    let ref := content_reference itemId contentIndex in
    (exists new,
       handleTextContent (mkText itemId contentIndex (mkSeq [] None)) w
         = (Ok tt, extend w new) /\
       messages new = [Control (TextDone ref)]) /\
    (exists r new later,
       handleAudioContent
         (mkAudio itemId contentIndex audio (mkSeq [] None) order) w
         = (r, grow w new later) /\
       messages (new ++ later) = [Control (TextDone ref)]).
Proof.
  intros itemId contentIndex audio order w ref. split.
  - eexists. split.
    + apply (handleTextContent_run (mkText itemId contentIndex (mkSeq [] None))).
    + reflexivity.
  - set (content := mkAudio itemId contentIndex audio (mkSeq [] None) order).
    destruct (handleAudioContent_observed content w) as (new & Hrun & _ & Hm).
    exists (joined_result (audio_join content)), new,
      (after_settling (audio_join content)).
    split; [exact Hrun | exact Hm].
Qed.

(** * Further properties of the code *)

(** ** Runs without failure *)

Lemma existsb_none {A} (f : A -> bool) (l : list A) :
  Forall (fun x => f x = false) l -> existsb f l = false.
Proof.
  induction 1 as [|x l Hx _ IH]; simpl; [reflexivity|].
  now rewrite Hx.
Qed.

Lemma delivers_ret : delivers (ret tt) [] [].
Proof. intros w. exists []. rewrite extend_nil. auto. Qed.

Lemma delivers_emit (e : Effect) :
  is_error_log e = false ->
  delivers (emit e) (messages [e]) (binary_frames [e]).
Proof.
  intros He w. exists [e]. rewrite emit_run. simpl. rewrite He. auto.
Qed.

Lemma delivers_seq (m k : M unit) ms1 bs1 ms2 bs2 :
  delivers m ms1 bs1 -> delivers k ms2 bs2 ->
  delivers (m ;; k) (ms1 ++ ms2) (bs1 ++ bs2).
Proof.
  intros Hm Hk w. unfold bind.
  destruct (Hm w) as (n1 & -> & M1 & B1 & Q1).
  destruct (Hk (extend w n1)) as (n2 & -> & M2 & B2 & Q2).
  exists (n1 ++ n2). rewrite extend_extend.
  unfold messages, binary_frames in *. rewrite !collect_app, existsb_app.
  rewrite M1, M2, B1, B2, Q1, Q2. auto.
Qed.

Lemma delivers_for_each {A} (body : A -> M unit)
      (f : A -> list WSMessage) (g : A -> list Buffer) (xs : list A) :
  (forall x, In x xs -> delivers (body x) (f x) (g x)) ->
  delivers (for_each body xs) (flat_map f xs) (flat_map g xs).
Proof.
  induction xs as [|x xs IH]; intros Hb; simpl.
  - apply delivers_ret.
  - apply delivers_seq.
    + apply Hb. now left.
    + apply IH. intros y Hy. apply Hb. now right.
Qed.

Lemma delivers_try (body : M unit) (handler : JsError -> M unit) ms bs :
  delivers body ms bs -> delivers (try_catch body handler) ms bs.
Proof.
  intros Hb w. unfold try_catch.
  destruct (Hb w) as (n & -> & H). exists n. auto.
Qed.

Lemma delivers_eq (m : M unit) ms bs ms' bs' :
  delivers m ms bs -> ms = ms' -> bs = bs' -> delivers m ms' bs'.
Proof. now intros H -> ->. Qed.

Lemma delivers_for_await {A} (body : A -> M unit)
      (f : A -> list WSMessage) (g : A -> list Buffer) (s : Seq A) :
  ending s = None ->
  (forall x, In x (yields s) -> delivers (body x) (f x) (g x)) ->
  delivers (for_await s body) (flat_map f (yields s)) (flat_map g (yields s)).
Proof.
  intros He Hb. unfold for_await. rewrite He.
  eapply delivers_eq.
  - apply delivers_seq; [apply delivers_for_each, Hb | apply delivers_ret].
  - apply app_nil_r.
  - apply app_nil_r.
Qed.

Lemma handleTextContent_delivers (c : RTTextContent) :
  ending (textChunks c) = None ->
  delivers (handleTextContent c) (text_messages c) [].
Proof.
  intros He w. rewrite handleTextContent_run, He. eexists. split; [reflexivity|].
  unfold messages, binary_frames. rewrite !collect_app, existsb_app.
  fold messages. fold binary_frames.
  rewrite messages_of_deltas, no_binary_in_deltas. repeat split.
  rewrite orb_false_r. apply existsb_none, Forall_map, Forall_forall.
  reflexivity.
Qed.

Lemma handleAudioContent_delivers (c : RTAudioContent) :
  ending (audioChunks c) = None ->
  ending (transcriptChunks c) = None ->
  delivers (handleAudioContent c) (transcript_messages c)
    (map buffer (yields (audioChunks c))).
Proof.
  intros Ha Ht w. rewrite handleAudioContent_run.
  destruct (audio_join_frames c) as [Hb Hm]. cbv zeta in Hb, Hm.
  assert (Hj : joined_result (audio_join c) = Ok tt /\
               after_settling (audio_join c) = []).
  { unfold audio_join. rewrite Ha, Ht. apply race_both_fulfil. }
  destruct Hj as [Hr Hl]. rewrite Hr, Hl, grow_nil. rewrite Hl, app_nil_r in Hb, Hm.
  eexists. split; [reflexivity|].
  unfold messages, binary_frames. rewrite !collect_app, existsb_app.
  fold messages. fold binary_frames.
  rewrite Hb, Hm, binary_frames_of_audio, messages_of_transcript, Ht.
  simpl. rewrite !app_nil_r, orb_false_r. repeat split.
  pose proof (race_shuffle (outcome (ending (audioChunks c)))
                (outcome (ending (transcriptChunks c)))
                (arrival c) (audio_effects c) (transcript_effects c)) as Hs.
  fold (audio_join c) in Hs. rewrite Hl, app_nil_r in Hs.
  assert (HF : Forall (fun e => is_error_log e = false)
                 (before_settling (audio_join c))).
  { apply (shuffle_Forall Hs).
    - unfold audio_effects. apply Forall_map, Forall_forall. reflexivity.
    - unfold transcript_effects. apply Forall_app. split.
      + apply Forall_map, Forall_forall. reflexivity.
      + rewrite Ht. repeat constructor. }
  apply existsb_none, HF.
Qed.

Lemma handleContent_delivers (c : Content) :
  content_drains c = true ->
  delivers (handleContent c) (content_messages c) (content_frames c).
Proof.
  destruct c as [t|a|other]; simpl; intros Hc.
  - apply handleTextContent_delivers.
    destruct (ending (textChunks t)); [discriminate | reflexivity].
  - apply andb_true_iff in Hc. destruct Hc as [Ha Ht].
    apply handleAudioContent_delivers.
    + destruct (ending (audioChunks a)); [discriminate | reflexivity].
    + destruct (ending (transcriptChunks a)); [discriminate | reflexivity].
  - apply delivers_ret.
Qed.

Lemma handleItem_delivers (i : Item) :
  item_drains i = true ->
  delivers (handleItem i) (item_messages i) (item_frames i).
Proof.
  destruct i as [contents|other]; simpl; intros Hi; [|apply delivers_ret].
  apply andb_true_iff in Hi. destruct Hi as [Hall Hend].
  apply delivers_for_await.
  - destruct (ending contents); [discriminate | reflexivity].
  - intros c Hc. apply handleContent_delivers.
    now apply (proj1 (forallb_forall _ _) Hall).
Qed.

Lemma handleResponse_delivers (items : Seq Item) :
  forallb item_drains (yields items) && ends_normally (ending items) = true ->
  delivers (handleResponse items)
    (flat_map item_messages (yields items))
    (flat_map item_frames (yields items)).
Proof.
  intros Hi. apply andb_true_iff in Hi. destruct Hi as [Hall Hend].
  unfold handleResponse. apply delivers_try.
  eapply delivers_eq.
  - apply delivers_seq.
    + apply delivers_for_await.
      * destruct (ending items); [discriminate | reflexivity].
      * intros i Hi. apply handleItem_delivers.
        now apply (proj1 (forallb_forall _ _) Hall).
    + apply (delivers_emit (Log Debug "Response handled successfully")).
      reflexivity.
  - apply app_nil_r.
  - apply app_nil_r.
Qed.

Lemma handleInputAudio_delivers (i : RTInputAudioItem) :
  completion i = None ->
  delivers (handleInputAudio i)
    [Control SpeechStarted;
     Transcription (input_id i) (or_empty (transcription i))] [].
Proof.
  intros Hc w. unfold handleInputAudio, waitForCompletion, try_catch, bind,
    send, log.
  rewrite Hc, !emit_run. cbn [finish ret]. rewrite !emit_run, !extend_extend.
  eexists. split; [reflexivity|]. auto.
Qed.

Lemma handleEvent_delivers (e : UpstreamEvent) :
  event_drains e = true ->
  delivers (handleEvent e) (event_messages e) (event_frames e).
Proof.
  destruct e as [items|i|other]; simpl; intros He.
  - now apply handleResponse_delivers.
  - apply handleInputAudio_delivers.
    destruct (completion i); [discriminate | reflexivity].
  - apply delivers_ret.
Qed.



(** ** When the event loop returns normally *)

Lemma for_each_decides {A} (body : A -> M unit) (ok : A -> bool) :
  decides body ok ->
  forall xs w, fst (for_each body xs w) = Ok tt <-> forallb ok xs = true.
Proof.
  intros Hd. induction xs as [|x xs IH]; intros w; simpl.
  - split; reflexivity.
  - unfold bind. pose proof (Hd x w) as Hx.
    destruct (body x w) as [[[]|e] w1]; simpl in Hx.
    + rewrite (proj1 Hx eq_refl). simpl. apply IH.
    + simpl. split; [discriminate|]. intros H. apply andb_true_iff in H.
      destruct H as [H _]. apply Hx in H. discriminate.
Qed.

Lemma for_await_decides {A} (body : A -> M unit) (ok : A -> bool) :
  decides body ok ->
  forall s w,
    fst (for_await s body w) = Ok tt
    <-> forallb ok (yields s) && ends_normally (ending s) = true.
Proof.
  intros Hd s w. unfold for_await, bind.
  pose proof (for_each_decides body ok Hd (yields s) w) as Hall.
  destruct (for_each body (yields s) w) as [[[]|e] w1]; simpl in Hall.
  - rewrite (proj1 Hall eq_refl). simpl.
    destruct (ending s); simpl; split; (reflexivity || discriminate).
  - simpl. split; [discriminate|]. intros H. apply andb_true_iff in H.
    destruct H as [H _]. apply Hall in H. discriminate.
Qed.

(** A handler that logs and rethrows leaves the outcome as it is. *)
Lemma rethrow_keeps_outcome (body : M unit) (lvl : Level) (msg : string) w :
  fst (try_catch body (fun error => log lvl msg ;; throw error) w)
  = fst (body w).
Proof.
  unfold try_catch. destruct (body w) as [[[]|e] w1]; reflexivity.
Qed.

Lemma handleTextContent_decides (c : RTTextContent) w :
  fst (handleTextContent c w) = Ok tt
  <-> ends_normally (ending (textChunks c)) = true.
Proof.
  rewrite handleTextContent_run.
  destruct (ending (textChunks c)); simpl; split; (reflexivity || discriminate).
Qed.

Lemma handleAudioContent_decides (c : RTAudioContent) w :
  fst (handleAudioContent c w) = Ok tt
  <-> ends_normally (ending (audioChunks c))
      && ends_normally (ending (transcriptChunks c)) = true.
Proof.
  rewrite handleAudioContent_run. cbn [fst]. unfold audio_join.
  destruct (ending (audioChunks c)) as [ea|];
    destruct (ending (transcriptChunks c)) as [et|]; cbn [outcome ends_normally andb].
  4: { split; [reflexivity|]. intros _. apply race_both_fulfil. }
  all: split; [|discriminate]; intros H;
    match goal with
    | H : joined_result (race ?ra ?rt ?o ?la ?lt) = Ok tt |- _ =>
        assert (Hrej : ra <> Ok tt \/ rt <> Ok tt)
          by ((left; discriminate) || (right; discriminate));
        destruct (@race_rejects ra rt o la lt Hrej) as [e He];
        rewrite He in H; discriminate
    end.
Qed.

Lemma handleContent_decides : decides handleContent content_drains.
Proof.
  intros [t|a|other] w; simpl.
  - apply handleTextContent_decides.
  - apply handleAudioContent_decides.
  - split; reflexivity.
Qed.

Lemma handleItem_decides : decides handleItem item_drains.
Proof.
  intros [contents|other] w; simpl.
  - apply (for_await_decides _ _ handleContent_decides).
  - split; reflexivity.
Qed.

Lemma handleInputAudio_decides (i : RTInputAudioItem) w :
  fst (handleInputAudio i w) = Ok tt <-> ends_normally (completion i) = true.
Proof.
  unfold handleInputAudio. rewrite rethrow_keeps_outcome.
  unfold waitForCompletion, bind, send, log. rewrite !emit_run.
  destruct (completion i); simpl; split; (reflexivity || discriminate).
Qed.

Lemma handleEvent_decides : decides handleEvent event_drains.
Proof.
  intros [items|i|other] w; simpl.
  - unfold handleResponse. rewrite rethrow_keeps_outcome. unfold bind.
    pose proof (for_await_decides _ _ handleItem_decides items w) as H.
    destruct (for_await items handleItem w) as [[[]|e] w1]; simpl in *.
    + rewrite <- H. split; reflexivity.
    + rewrite <- H. split; discriminate.
  - apply handleInputAudio_decides.
  - split; reflexivity.
Qed.

Lemma event_loop_body_stays_open (events : Seq UpstreamEvent) :
  confined keeps_open
    (log Debug "Starting event loop" ;;
     emit (Upstream Events) ;;
     for_await events handleEvent).
Proof.
  unfold log. stays_open.
  destruct x as [e|e|]; simpl;
    [apply handleResponse_stays_open
    |apply handleInputAudio_stays_open
    |apply confined_ret].
Qed.

(** X2.  The event loop returns normally exactly when every sequence it
    is given ends normally: the event sequence, the items of every
    response, the content entries of every message item, the chunk
    sequences of every entry, and the completion of every input audio
    item.  In every other case it throws, and the last thing it did before
    throwing was to log the failure at the level of the loop: no failure
    below it is swallowed. *)
Theorem event_loop_outcome :
  forall (events : Seq UpstreamEvent) (w : World),
    let healthy :=
      forallb event_drains (yields events) && ends_normally (ending events) in
    match fst (startEventLoop events w) with
    | Ok _ => healthy = true
    | Throw _ =>
        healthy = false /\
        exists before later,
          snd (startEventLoop events w)
          = grow w (before ++ [Log Error "Error in event loop"]) later
    end.
Proof.
  intros events w healthy.
  pose proof (rethrow_keeps_outcome
                (log Debug "Starting event loop" ;;
                 emit (Upstream Events) ;;
                 for_await events handleEvent)
                Error "Error in event loop" w) as Hfst.
  fold (startEventLoop events) in Hfst.
  assert (Hbody :
    fst ((log Debug "Starting event loop" ;;
          emit (Upstream Events) ;;
          for_await events handleEvent) w) = Ok tt <-> healthy = true).
  { unfold bind, log. rewrite !emit_run.
    apply (for_await_decides _ _ handleEvent_decides). }
  destruct (event_loop_body_stays_open events w) as (n & later & Hw & _).
  unfold startEventLoop, try_catch in *.
  destruct ((log Debug "Starting event loop" ;;
             emit (Upstream Events) ;;
             for_await events handleEvent) w) as [[[]|e] w1];
    cbn [fst snd] in *.
  - apply Hbody. reflexivity.
  - split.
    + destruct healthy; [|reflexivity].
      assert (H : @Throw unit e = Ok tt) by now apply Hbody. discriminate.
    + subst w1. exists n, later. unfold bind, log, throw.
      rewrite emit_run. simpl. unfold extend, grow. simpl.
      now rewrite app_assoc.
Qed.

(** ** Content references tell streams apart *)

Lemma digits_have_no_dash (d : Decimal.uint) (a b : string) :
  NilEmpty.string_of_uint d <> (a ++ String "-" b)%string.
Proof.
  revert a. induction d; intros a H; destruct a as [|c a]; simpl in H;
    try discriminate; injection H as _ H; now apply IHd in H.
Qed.

Lemma number_to_string_has_no_dash (n : N) (a b : string) :
  number_to_string n <> (a ++ String "-" b)%string.
Proof.
  unfold number_to_string, NilZero.string_of_uint.
  destruct (N.to_uint n) eqn:E; try apply digits_have_no_dash.
  destruct a as [|c [|c' a]]; discriminate.
Qed.

Lemma number_to_string_inj (n n' : N) :
  number_to_string n = number_to_string n' -> n = n'.
Proof.
  unfold number_to_string. intros H.
  assert (Hnil : forall m, N.to_uint m <> Decimal.Nil).
  { intros [|p]; [discriminate | apply DecimalPos.Unsigned.to_uint_nonnil]. }
  apply DecimalN.Unsigned.to_uint_inj.
  pose proof (NilZero.usu (N.to_uint n) (Hnil n)) as U.
  pose proof (NilZero.usu (N.to_uint n') (Hnil n')) as U'.
  rewrite H, U' in U. now injection U.
Qed.

(** X3.  Two content entries get the same reference only when they have
    the same item id and the same content index: the index is rendered in
    digits, so the reference splits at its last dash, whatever dashes the
    item id holds. *)
Theorem content_reference_inj :
  forall (itemId itemId' : string) (contentIndex contentIndex' : N),
    content_reference itemId contentIndex
      = content_reference itemId' contentIndex' ->
    itemId = itemId' /\ contentIndex = contentIndex'.
Proof.
  unfold content_reference.
  induction itemId as [|c i IH]; intros [|c' i'] n n' H; simpl in H.
  - injection H as H. split; [reflexivity | now apply number_to_string_inj].
  - injection H as _ H. now apply number_to_string_has_no_dash in H.
  - injection H as _ H. symmetry in H.
    now apply number_to_string_has_no_dash in H.
  - injection H as -> H. apply IH in H. destruct H as [-> ->]. auto.
Qed.

(** X3 at work: an item id with a dash in it. *)
Lemma content_reference_inj_witness :
  content_reference "item-1" 12 = "item-1-12" /\
  ("item-1" = "item-1" /\ 12%N = 12%N).
Proof.
  split; [reflexivity|].
  apply (content_reference_inj "item-1" "item-1" 12 12). reflexivity.
Defined.

(** ** Which failure an audio entry reports *)

Lemma first_settles_origin (r other : Result unit) (others : list Effect) e :
  joined_result (first_settles r other others) = Throw e ->
  r = Throw e \/ other = Throw e.
Proof. destruct r as [[]|e0]; simpl; intros H; [right | left]; exact H. Qed.

Lemma race_origin (ra rt : Result unit) (order : list Branch) e :
  forall la lt,
    joined_result (race ra rt order la lt) = Throw e ->
    ra = Throw e \/ rt = Throw e.
Proof.
  induction order as [|b rest IH]; intros la lt; simpl.
  - apply first_settles_origin.
  - destruct b.
    + destruct la; simpl; [apply first_settles_origin | apply IH].
    + destruct lt; simpl; [|apply IH].
      intros H. apply first_settles_origin in H. tauto.
Qed.

(** X4.  The audio handler returns normally only when both of its
    sequences end normally, and the error it throws is always the error
    one of its two sequences failed with, in whatever order the chunks
    were delivered. *)
Theorem audio_failure_is_one_of_its_sequences :
  forall (content : RTAudioContent) (w : World),
    match fst (handleAudioContent content w) with
    | Ok _ =>
        ending (audioChunks content) = None /\
        ending (transcriptChunks content) = None
    | Throw e =>
        ending (audioChunks content) = Some e \/
        ending (transcriptChunks content) = Some e
    end.
Proof.
  intros content w.
  pose proof (handleAudioContent_decides content w) as Hok.
  rewrite handleAudioContent_run in *. cbn [fst] in *.
  destruct (joined_result (audio_join content)) as [[]|e] eqn:Hj.
  - pose proof (proj1 Hok eq_refl) as Hn. apply andb_true_iff in Hn.
    destruct (ending (audioChunks content)), (ending (transcriptChunks content));
      destruct Hn; try discriminate. auto.
  - apply race_origin in Hj.
    destruct (ending (audioChunks content)), (ending (transcriptChunks content));
      destruct Hj as [Hj|Hj]; try discriminate; injection Hj as ->; auto.
Qed.

(** ** The client's frames *)

Lemma forwards_nothing_to_client (es : list Effect) :
  Forall forwards es -> messages es = [] /\ binary_frames es = [].
Proof.
  intros H. split; apply collect_none; (eapply Forall_impl; [|exact H]);
    intros [m| | | |c|]; simpl; tauto.
Qed.

Lemma releases_app (a b : list Effect) :
  releases (a ++ b) = releases a + releases b.
Proof.
  unfold releases, upstream_calls.
  now rewrite collect_app, filter_app, length_app.
Qed.

Lemma forwards_releases_nothing (es : list Effect) :
  Forall forwards es -> releases es = 0.
Proof.
  induction 1 as [|e es He _ IH]; [reflexivity|].
  change (e :: es) with ([e] ++ es). rewrite releases_app, IH.
  destruct e as [m| | | |[]|]; simpl in He; try tauto; reflexivity.
Qed.

Section ClientFrames.
Variable toString_utf8 : Buffer -> string.
Variable JSON_parse : string -> option JSON.
Variable upstream_outcome : list Effect -> UpCall -> option JsError.

Lemma handleBinaryMessage_run (message : Buffer) (w : World) :
  handleMessage toString_utf8 JSON_parse upstream_outcome message true w
  = (Ok tt,
     extend w
       (Upstream (SendAudio message)
          :: match upstream_outcome (trace w) (SendAudio message) with
             | None => []
             | Some _ => [Log Error "Failed to send audio data";
                          Log Error "Error handling message"]
             end)).
Proof.
  unfold handleMessage, handleBinaryMessage, try_catch, bind, log.
  rewrite upstream_run.
  destruct (upstream_outcome (trace w) (SendAudio message)); cbn [outcome].
  - rewrite emit_run. cbn [throw]. rewrite emit_run, !extend_extend. reflexivity.
  - reflexivity.
Qed.

Lemma handleTextMessage_requests (frame : Buffer) (w : World) :
  exists new,
    handleMessage toString_utf8 JSON_parse upstream_outcome frame false w
    = (Ok tt, extend w new) /\
    Forall forwards new /\
    upstream_calls new
    = requested toString_utf8 JSON_parse upstream_outcome frame w.
Proof.
  unfold handleMessage, handleTextMessage, try_catch, bind, parse, requested, log.
  destruct (JSON_parse (toString_utf8 frame)) as [v|]; cbn [throw ret].
  2: { rewrite emit_run. eexists. split; [reflexivity|].
       split; [repeat constructor | reflexivity]. }
  destruct v; cbn [get_property throw ret]; rewrite ?emit_run, ?extend_extend;
    try (eexists; split; [reflexivity|];
         split; [repeat constructor | reflexivity]).
  destruct (strict_equals (own_property "type" fields) "user_message");
    cbn [ret].
  2: { eexists. split; [reflexivity|].
       split; [repeat constructor | reflexivity]. }
  rewrite upstream_run. cbn [extend trace].
  destruct (upstream_outcome _ (SendItem _)); cbn [outcome].
  - rewrite !emit_run. cbn [throw]. rewrite !emit_run, !extend_extend.
    eexists. split; [reflexivity|].
    split; [repeat constructor | reflexivity].
  - rewrite upstream_run.
    destruct (upstream_outcome _ GenerateResponse); cbn [outcome];
      rewrite !emit_run; cbn [throw]; rewrite ?emit_run, !extend_extend;
      eexists; (split; [reflexivity|]);
      (split; [repeat constructor | reflexivity]).
Qed.

Lemma handleMessage_forwards (message : Buffer) (isBinary : bool) (w : World) :
  exists new,
    handleMessage toString_utf8 JSON_parse upstream_outcome message isBinary w
    = (Ok tt, extend w new) /\
    Forall forwards new.
Proof.
  destruct isBinary.
  - rewrite handleBinaryMessage_run. eexists. split; [reflexivity|].
    destruct (upstream_outcome (trace w) (SendAudio message));
      repeat constructor.
  - destruct (handleTextMessage_requests message w) as (new & H & F & _).
    eauto.
Qed.

End ClientFrames.

(** X5.  The upstream connection is released by the handler of the
    client's disconnection and by no handler of a frame.  Whatever the
    frame, binary or text, and whatever the upstream does with it, handling
    it returns normally, makes no [close] call and writes nothing to the
    client's socket.  Handling the disconnection returns normally as well,
    also when the release fails: it logs, makes one upstream call, the
    [close], logs how that ended, and writes nothing to the client's
    socket. *)
Theorem only_disconnection_releases :
  forall (toString_utf8 : Buffer -> string) (JSON_parse : string -> option JSON)
         (upstream_outcome : list Effect -> UpCall -> option JsError)
         (w : World),
    (forall (message : Buffer) (isBinary : bool),
        exists new,
          handleMessage toString_utf8 JSON_parse upstream_outcome
            message isBinary w
          = (Ok tt, extend w new) /\
          releases new = 0 /\
          messages new = [] /\
          binary_frames new = []) /\
    (let closing :=
       [Log Info "Session closing";
        Upstream Close;
        match upstream_outcome (trace w ++ [Log Info "Session closing"]) Close with
        | None => Log Info "Session closed successfully"
        | Some _ => Log Error "Error closing session"
        end] in
     handleClose upstream_outcome w = (Ok tt, extend w closing) /\
     upstream_calls closing = [Close] /\
     releases closing = 1 /\
     messages closing = [] /\
     binary_frames closing = []).
Proof.
  intros toS jp up w. split.
  - intros message isBinary.
    destruct (handleMessage_forwards toS jp up message isBinary w)
      as (new & Hrun & F).
    destruct (forwards_nothing_to_client new F) as [Hm Hb].
    exists new. split; [exact Hrun|].
    split; [now apply forwards_releases_nothing | auto].
  - cbv zeta. split.
    + unfold handleClose, bind, try_catch, log. rewrite emit_run, upstream_run.
      cbn [extend trace].
      destruct (up _ Close); cbn [outcome]; rewrite emit_run, !extend_extend;
        reflexivity.
    + destruct (up _ Close); repeat split; reflexivity.
Qed.

(** X6.  Binary frames are never decoded: each is handed to the upstream
    as it is, by one [sendAudio], and the calls are made in the order the
    frames came in, whether or not earlier ones failed; nothing is written
    to the client. *)
Theorem binary_frames_forwarded_in_order :
  forall (toString_utf8 : Buffer -> string) (JSON_parse : string -> option JSON)
         (upstream_outcome : list Effect -> UpCall -> option JsError)
         (frames : list Buffer) (w : World),
    exists new,
      handleFrames toString_utf8 JSON_parse upstream_outcome
        (map (fun frame => (frame, true)) frames) w
      = (Ok tt, extend w new) /\
      upstream_calls new = map SendAudio frames /\
      messages new = [] /\
      binary_frames new = [].
Proof.
  intros toS jp up frames. unfold handleFrames.
  induction frames as [|m frames IH]; intros w; simpl.
  - exists []. rewrite extend_nil. auto.
  - unfold bind. cbn [fst snd]. rewrite handleBinaryMessage_run.
    match goal with |- context [extend w ?n] => set (n1 := n) end.
    destruct (IH (extend w n1)) as (n2 & -> & Hc & Hm & Hb).
    exists (n1 ++ n2). rewrite extend_extend. split; [reflexivity|].
    unfold upstream_calls, messages, binary_frames in *.
    rewrite !collect_app, Hc, Hm, Hb. unfold n1.
    destruct (up (trace w) (SendAudio m)); simpl; auto.
Qed.

(** X7.  A text frame makes the session call the upstream only when it
    is a JSON object whose [type] is the string user_message: then the
    object's [text] is sent as a conversation item, as found (the frame's
    [id] is not used), and a response is requested only if sending the
    item succeeded.  In every case the handler returns normally and writes
    nothing to the client. *)
Theorem text_frame_requests :
  forall (toString_utf8 : Buffer -> string) (JSON_parse : string -> option JSON)
         (upstream_outcome : list Effect -> UpCall -> option JsError)
         (frame : Buffer) (w : World),
    exists new,
      handleMessage toString_utf8 JSON_parse upstream_outcome frame false w
      = (Ok tt, extend w new) /\
      upstream_calls new
      = requested toString_utf8 JSON_parse upstream_outcome frame w /\
      messages new = [] /\
      binary_frames new = [].
Proof.
  intros toS jp up frame w.
  destruct (handleTextMessage_requests toS jp up frame w) as (new & H & F & C).
  destruct (forwards_nothing_to_client new F) as [Hm Hb].
  exists new. auto.
Qed.

(** ** A session that starts well *)

Ltac relaying :=
  cbv zeta;
  repeat first
    [ apply confined_try_catch; [|intros ?]
    | apply confined_for_await; intros ?
    | apply confined_for_each; intros ?
    | apply confined_bind; [|intros ?]
    | apply confined_promise_all
    | apply confined_emit; exact I
    | apply confined_ret
    | apply confined_throw
    | apply confined_finish ].

Lemma handleEvent_relays (event : UpstreamEvent) :
  confined relays (handleEvent event).
Proof.
  destruct event as [items|i|other]; simpl.
  - unfold handleResponse, log. relaying.
    destruct x as [contents|]; simpl; relaying.
    destruct x as [c|c|]; simpl.
    + unfold handleTextContent, send, log. relaying.
    + unfold handleAudioContent, handleAudioChunks, handleAudioTranscript,
        send, sendBinary, log. relaying.
    + apply confined_ret.
  - unfold handleInputAudio, waitForCompletion, send, log. relaying.
  - apply confined_ret.
Qed.

Lemma relays_no_greeting (es : list Effect) :
  Forall relays es -> greeted es = false.
Proof.
  unfold greeted. induction 1 as [|e es He _ IH]; [reflexivity|].
  destruct e as [[| | |[]]| | | | |]; simpl in *; tauto.
Qed.

Lemma relays_only_waits (es : list Effect) :
  Forall relays es ->
  Forall (fun c => exists item, c = WaitForCompletion item) (upstream_calls es).
Proof.
  unfold upstream_calls. induction 1 as [|e es He _ IH]; [constructor|].
  destruct e as [m| | | |[]|]; simpl in *; try tauto; try assumption.
  constructor; [eauto | assumption].
Qed.

Lemma startEventLoop_detached (events : Seq UpstreamEvent) (w : World) :
  exists rest later,
    detached (startEventLoop events) w
    = (Ok tt,
       grow w ([Log Debug "Starting event loop"; Upstream Events] ++ rest) later) /\
    Forall relays rest /\ Forall relays later.
Proof.
  unfold detached, startEventLoop, try_catch, bind, log. rewrite !emit_run.
  rewrite extend_extend. cbn [app].
  destruct (@confined_for_await relays _ events handleEvent handleEvent_relays
              (extend w [Log Debug "Starting event loop"; Upstream Events]))
    as (n & later & Hw & Fn & Fl).
  destruct (for_await events handleEvent _) as [[[]|e] w1]; simpl in Hw; subst w1.
  - exists n, later. split; [|auto].
    unfold grow, extend. simpl. now rewrite <- app_assoc.
  - exists (n ++ [Log Error "Error in event loop"; UnhandledRejection e]), later.
    split.
    + rewrite emit_run. cbn [throw]. unfold record_effect, grow, extend. simpl.
      rewrite <- !app_assoc. reflexivity.
    + split; [|assumption]. apply Forall_app. split; [assumption|].
      repeat constructor.
Qed.

(** X8.  When the upstream accepts its configuration, constructing a
    session returns normally whatever the event loop meets later; the
    client is greeted exactly once, after the upstream was configured and
    before the event loop starts; and from then on the session greets no
    more, closes nothing, and calls the upstream only to await the
    completion of input audio items. *)
Theorem session_greets_once :
  forall (upstream_outcome : list Effect -> UpCall -> option JsError)
         (backend : option string) (events : Seq UpstreamEvent)
         (w : World),
    (forall history,
       upstream_outcome history (Configure session_options) = None) ->
    let opening :=
      [Log Debug "Initializing RT client";
       Log Debug "Client configured successfully";
       Log Info "New session created";
       Log Debug "Configuring realtime session";
       Upstream (Configure session_options);
       Log Debug "Realtime session configured successfully";
       WsSend (Control (Connected "You are now connected to the a expressjs server"));
       Log Debug "Realtime session configured successfully";
       Log Debug "Starting event loop";
       Upstream Events] in
    exists rest later,
      construct upstream_outcome backend events w
      = (Ok tt, grow w (opening ++ rest) later) /\
      greeted (rest ++ later) = false /\
      tearing_down (rest ++ later) = false /\
      Forall (fun c => exists item, c = WaitForCompletion item)
        (upstream_calls (rest ++ later)).
Proof.
  intros up backend events w Hconf opening.
  set (w0 := extend w [Log Debug "Initializing RT client";
                       Log Debug "Client configured successfully";
                       Log Info "New session created";
                       Log Debug "Configuring realtime session";
                       Upstream (Configure session_options);
                       Log Debug "Realtime session configured successfully";
                       WsSend (Control (Connected
                         "You are now connected to the a expressjs server"));
                       Log Debug "Realtime session configured successfully"]).
  destruct (startEventLoop_detached events w0) as (rest & later & Hloop & Fr & Fl).
  assert (Hinit : forall w1,
    initialize up events
      (extend w1 [Log Debug "Client configured successfully";
                  Log Info "New session created"])
    = detached (startEventLoop events)
        (extend w1 [Log Debug "Client configured successfully";
                    Log Info "New session created";
                    Log Debug "Configuring realtime session";
                    Upstream (Configure session_options);
                    Log Debug "Realtime session configured successfully";
                    WsSend (Control (Connected
                      "You are now connected to the a expressjs server"));
                    Log Debug "Realtime session configured successfully"])).
  { intros w1. unfold initialize, bind, log, send.
    rewrite emit_run, upstream_run, Hconf. cbn [outcome].
    rewrite !emit_run, !extend_extend. reflexivity. }
  assert (Hall : Forall relays (rest ++ later)) by (apply Forall_app; auto).
  exists rest, later. split; [|split; [|split]].
  - unfold construct, initializeClient, setupEventHandlers, bind, log.
    rewrite emit_run.
    assert (Hrun :
      detached (initialize up events)
        (extend (extend w [Log Debug "Initializing RT client"])
           [Log Debug "Client configured successfully";
            Log Info "New session created"])
      = (Ok tt, grow w (opening ++ rest) later)).
    { unfold detached at 1. rewrite Hinit, extend_extend. cbn [app].
      fold w0. rewrite Hloop. unfold w0, grow, extend. simpl.
      rewrite <- !app_assoc. reflexivity. }
    destruct backend as [b|]; [destruct (String.eqb b "azure")|];
      cbn [ret]; rewrite !emit_run, extend_extend; cbn [app];
      rewrite <- Hrun, extend_extend; reflexivity.
  - now apply relays_no_greeting.
  - unfold tearing_down. apply existsb_none.
    eapply Forall_impl; [|exact Hall].
    intros [m| | | |[]|]; simpl; tauto.
  - now apply relays_only_waits.
Qed.

(** X8 at work: a healthy upstream and the events of the broken stream;
    the constructor still returns normally. *)
Lemma session_greets_once_witness :
  (forall history,
     upstream_healthy history (Configure session_options) = None) /\
  fst (construct upstream_healthy (Some "azure") broken_stream_events empty_world)
  = Ok tt.
Proof.
  split; [reflexivity|].
  destruct (session_greets_once upstream_healthy (Some "azure")
              broken_stream_events empty_world (fun _ => eq_refl))
    as (rest & later & Hrun & _).
  rewrite Hrun. reflexivity.
Defined.

(** ** The first failure ends the loop *)

(** X9.  When the events before some event all drain and that event does
    not, the event loop throws at it: what the loop does is the same
    whatever events follow and however the event sequence would have
    ended, and everything owed for the events before the failing one was
    sent, in order, before anything of the failing one. *)
Theorem event_loop_stops_at_first_failure :
  forall (before : list UpstreamEvent) (event : UpstreamEvent) (w : World),
    forallb event_drains before = true ->
    event_drains event = false ->
    exists e new later rest_messages rest_frames,
      (forall (after : list UpstreamEvent) (how : option JsError),
         startEventLoop (mkSeq (before ++ event :: after) how) w
         = (Throw e, grow w new later)) /\
      messages new = flat_map event_messages before ++ rest_messages /\
      binary_frames new = flat_map event_frames before ++ rest_frames.
Proof.
  intros before event w Hbefore Hevent.
  set (w0 := extend w [Log Debug "Starting event loop"; Upstream Events]).
  assert (Hpre : delivers (for_each handleEvent before)
                   (flat_map event_messages before)
                   (flat_map event_frames before)).
  { apply delivers_for_each. intros x Hx. apply handleEvent_delivers.
    now apply (proj1 (forallb_forall _ _) Hbefore). }
  destruct (Hpre w0) as (n & Hn & Hm & Hb & _).
  destruct (handleEvent_relays event (extend w0 n))
    as (n2 & later & Hw2 & _).
  pose proof (handleEvent_decides event (extend w0 n)) as Hd.
  destruct (handleEvent event (extend w0 n)) as [[[]|e] w2] eqn:Hev;
    cbn [fst snd] in *.
  { rewrite (proj1 Hd eq_refl) in Hevent. discriminate. }
  subst w2.
  exists e,
    ([Log Debug "Starting event loop"; Upstream Events] ++ n ++ n2
       ++ [Log Error "Error in event loop"]),
    later, (messages n2), (binary_frames n2).
  split; [|split].
  - intros after how.
    unfold startEventLoop, try_catch, bind, log. rewrite !emit_run, extend_extend.
    cbn [app]. fold w0.
    rewrite (for_await_stops handleEvent before event after how w0
               (extend w0 n) (grow (extend w0 n) n2 later) e Hn Hev).
    rewrite emit_run. cbn [throw]. unfold w0, extend, grow. simpl.
    rewrite <- !app_assoc. reflexivity.
  - unfold messages in *. simpl. rewrite !collect_app, Hm. simpl.
    now rewrite app_nil_r.
  - unfold binary_frames in *. simpl. rewrite !collect_app, Hb. simpl.
    now rewrite app_nil_r.
Qed.

(** X9 at work: an input audio item completes, the next one does not; the
    response that follows is never handled. *)
Lemma event_loop_stops_at_first_failure_witness :
  let before := [InputAudioEvent (mkInputAudio "in1" (Some "hello") None)] in
  let event :=
    InputAudioEvent
      (mkInputAudio "in2" None (Some (Rejected "connection lost"))) in
  (forallb event_drains before = true /\ event_drains event = false) /\
  exists e new later rest_messages rest_frames,
    (forall (after : list UpstreamEvent) (how : option JsError),
       startEventLoop (mkSeq (before ++ event :: after) how) empty_world
       = (Throw e, grow empty_world new later)) /\
    messages new = flat_map event_messages before ++ rest_messages /\
    binary_frames new = flat_map event_frames before ++ rest_frames.
Proof.
  intros before event. split; [split; reflexivity|].
  apply (event_loop_stops_at_first_failure before event empty_world);
    reflexivity.
Defined.

(** * Claims that rest on the lemmas above *)

(** ** C5: a failed upstream send is not fatal *)

Lemma forwards_keeps_open (es : list Effect) :
  Forall forwards es -> tearing_down es = false.
Proof.
  unfold tearing_down. induction 1 as [|e es He _ IH]; [reflexivity|].
  simpl. rewrite IH.
  destruct e as [m| | | |[]|]; simpl in He; try tauto; reflexivity.
Qed.

(** C5, as amended.  As stated the claim fails: a failed upstream send
    does not end the session.  What holds, for each of the three sends:
    when [sendAudio] fails, [handleBinaryMessage] logs the failure and
    raises it again; when [sendItem] fails, or [generateResponse] after a
    [sendItem] that succeeded, [handleTextMessage] logs the failure and
    raises it again, and after a failed [sendItem] no response is
    requested; [handleMessage] then catches the error, logs it a second
    time and returns normally.  These are all the effects: nothing closes
    the client's socket or releases the upstream connection.  And the
    session keeps handling frames: in any state, the one after such a
    failure included, the next frame is handled to a normal return, closes
    nothing, writes nothing to the client, and makes the upstream calls
    its content asks for: one [sendAudio] for a binary frame, [requested]
    for a text frame. *)
Theorem send_failure_is_logged_and_swallowed :
  forall (toString_utf8 : Buffer -> string) (JSON_parse : string -> option JSON)
         (upstream_outcome : list Effect -> UpCall -> option JsError)
         (message : Buffer) (w : World),
    let handle := handleMessage toString_utf8 JSON_parse upstream_outcome in
    let received := [Log Debug "Received text message"] in
    (forall e,
        upstream_outcome (trace w) (SendAudio message) = Some e ->
        handle message true w
        = (Ok tt,
           extend w [Upstream (SendAudio message);
                     Log Error "Failed to send audio data";
                     Log Error "Error handling message"])) /\
    (forall fields,
        JSON_parse (toString_utf8 message) = Some (JObject fields) ->
        own_property "type" fields = Some (JString "user_message") ->
        let text := own_property "text" fields in
        (forall e,
            upstream_outcome (trace w ++ received) (SendItem text) = Some e ->
            handle message false w
            = (Ok tt,
               extend w (received
                           ++ [Upstream (SendItem text);
                               Log Error "Failed to process user message";
                               Log Error "Error handling message"]))) /\
        (forall e,
            upstream_outcome (trace w ++ received) (SendItem text) = None ->
            upstream_outcome (trace w ++ received ++ [Upstream (SendItem text)])
              GenerateResponse = Some e ->
            handle message false w
            = (Ok tt,
               extend w (received
                           ++ [Upstream (SendItem text);
                               Upstream GenerateResponse;
                               Log Error "Failed to process user message";
                               Log Error "Error handling message"])))) /\
    (forall (next : Buffer) (isBinary : bool) (w' : World),
        exists new,
          handle next isBinary w' = (Ok tt, extend w' new) /\
          tearing_down new = false /\
          messages new = [] /\
          binary_frames new = [] /\
          upstream_calls new
          = if isBinary then [SendAudio next]
            else requested toString_utf8 JSON_parse upstream_outcome next w').
Proof.
  intros toS jp up message w handle received. unfold handle.
  split; [|split].
  - intros e He. rewrite handleBinaryMessage_run, He. reflexivity.
  - intros fields Hp Ht.
    pose proof (handleTextMessage_user_message toS jp up message fields w Hp Ht)
      as Hrun.
    cbv zeta in Hrun. cbn [extend trace] in Hrun.
    split.
    + intros e He. unfold handleMessage, try_catch.
      change (trace w ++ [Log Debug "Received text message"])
        with (trace w ++ received) in Hrun.
      rewrite Hrun, He. unfold log. rewrite emit_run, !extend_extend.
      reflexivity.
    + intros e Hitem He. unfold handleMessage, try_catch.
      change (trace w ++ [Log Debug "Received text message"])
        with (trace w ++ received) in Hrun.
      rewrite <- app_assoc in Hrun.
      rewrite Hrun, Hitem, He. unfold log. rewrite emit_run, !extend_extend.
      reflexivity.
  - intros next [|] w'.
    + rewrite handleBinaryMessage_run. eexists. split; [reflexivity|].
      destruct (up (trace w') (SendAudio next)); repeat split; reflexivity.
    + destruct (handleTextMessage_requests toS jp up next w')
        as (new & Hrun & F & Hcalls).
      exists new. split; [exact Hrun|].
      destruct (forwards_nothing_to_client new F) as [Hm Hb].
      split; [now apply forwards_keeps_open|]. auto.
Qed.

(** C5 at work: the upstream refuses a binary frame. *)
Lemma send_failure_is_logged_and_swallowed_witness :
  upstream_refuses_audio [] (SendAudio "pcm") = Some (Rejected "upstream unavailable") /\
  handleMessage utf8 JsonText.parse_json upstream_refuses_audio "pcm" true empty_world
  = (Ok tt,
     mkWorld [Upstream (SendAudio "pcm");
              Log Error "Failed to send audio data";
              Log Error "Error handling message"] []).
Proof.
  split; [reflexivity|].
  apply (proj1 (send_failure_is_logged_and_swallowed utf8 JsonText.parse_json
                  upstream_refuses_audio "pcm" empty_world)
           (Rejected "upstream unavailable")).
  reflexivity.
Defined.

(** C5, the claim as stated refuted.  Sending audio fails; the handler
    returns normally, nothing is torn down, and the user message that comes
    next is forwarded and answered as in a healthy session: the session is
    still active. *)
Lemma failed_send_leaves_session_active :
  let handle := handleMessage utf8 JsonText.parse_json upstream_refuses_audio in
  let w1 := snd (handle "pcm" true empty_world) in
  let w2 := snd (handle user_message_frame false w1) in
  upstream_refuses_audio [] (SendAudio "pcm") = Some (Rejected "upstream unavailable") /\
  fst (handle "pcm" true empty_world) = Ok tt /\
  tearing_down (settled w1) = false /\
  upstream_calls (settled w2)
  = [SendAudio "pcm"; SendItem (Some (JString "hello")); GenerateResponse] /\
  tearing_down (settled w2) = false.
Proof. vm_compute. repeat split; reflexivity. Qed.

(** ** C1: every opened stream ends *)

Lemma startEventLoop_decides (events : Seq UpstreamEvent) (w : World) :
  fst (startEventLoop events w) = Ok tt
  <-> forallb event_drains (yields events) && ends_normally (ending events)
      = true.
Proof.
  unfold startEventLoop. rewrite rethrow_keeps_outcome.
  unfold bind, log. rewrite !emit_run.
  apply (for_await_decides _ _ handleEvent_decides).
Qed.

Lemma startEventLoop_delivers (events : Seq UpstreamEvent) :
  forallb event_drains (yields events) = true ->
  ending events = None ->
  delivers (startEventLoop events)
    (flat_map event_messages (yields events))
    (flat_map event_frames (yields events)).
Proof.
  intros Hall Hend. unfold startEventLoop. apply delivers_try.
  apply (delivers_seq _ _ [] [] _ _).
  - apply (delivers_emit (Log Debug "Starting event loop")). reflexivity.
  - apply (delivers_seq _ _ [] [] _ _).
    + apply (delivers_emit (Upstream Events)). reflexivity.
    + apply delivers_for_await; [exact Hend|].
      intros e He. apply handleEvent_delivers.
      now apply (proj1 (forallb_forall _ _) Hall).
Qed.

(** A call that is not awaited: it returned normally, or its rejection is
    left unhandled. *)
Lemma detached_settles (m : M unit) (w : World) :
  (exists e, In (UnhandledRejection e) (trace (snd (detached m w)))) \/
  (fst (m w) = Ok tt /\ snd (detached m w) = snd (m w)).
Proof.
  unfold detached. destruct (m w) as [[[]|e] w1]; simpl.
  - right. auto.
  - left. exists e. apply in_or_app. right. now left.
Qed.

Lemma initialize_settles
      (upstream_outcome : list Effect -> UpCall -> option JsError)
      (events : Seq UpstreamEvent) (w : World) :
  (exists e,
      In (UnhandledRejection e)
         (trace (snd (detached (initialize upstream_outcome events) w)))) \/
  exists new,
    snd (detached (initialize upstream_outcome events) w) = extend w new /\
    forallb event_drains (yields events) && ends_normally (ending events)
    = true /\
    messages new = greeting_message :: flat_map event_messages (yields events).
Proof.
  destruct (detached_settles (initialize upstream_outcome events) w)
    as [H | [Hok Hsnd]]; [now left|].
  rewrite Hsnd. clear Hsnd. revert Hok.
  unfold initialize, bind, log, send.
  rewrite emit_run, upstream_run.
  destruct (upstream_outcome _ (Configure session_options)) as [e|];
    cbn [outcome]; [discriminate|].
  rewrite !emit_run, !extend_extend. cbn [app].
  set (w1 := extend w _). intros _.
  destruct (detached_settles (startEventLoop events) w1)
    as [[e He] | [Hok Hsnd]].
  - left. exists e. exact He.
  - right. rewrite Hsnd.
    apply startEventLoop_decides in Hok. pose proof Hok as Hdrains.
    apply andb_true_iff in Hok. destruct Hok as [Hall Hend].
    assert (Hnone : ending events = None)
      by (destruct (ending events); [discriminate | reflexivity]).
    destruct (startEventLoop_delivers events Hall Hnone w1)
      as (n & Hrun & Hm & _).
    rewrite Hrun. unfold w1. rewrite extend_extend.
    eexists. split; [reflexivity|]. split; [exact Hdrains|].
    unfold messages in *. rewrite collect_app, Hm. reflexivity.
Qed.

(** A session, from its construction on: either a rejection is left
    unhandled, or every sequence ended normally and the client was sent
    the greeting and then, in order, everything owed for the events, with
    nothing left running. *)
Lemma construct_settles
      (upstream_outcome : list Effect -> UpCall -> option JsError)
      (backend : option string) (events : Seq UpstreamEvent) :
  let w := snd (construct upstream_outcome backend events empty_world) in
  (exists e, In (UnhandledRejection e) (trace w)) \/
  (forallb event_drains (yields events) && ends_normally (ending events)
   = true /\
   messages (settled w)
   = greeting_message :: flat_map event_messages (yields events)).
Proof.
  intros w. unfold w, construct, initializeClient, setupEventHandlers, bind, log.
  rewrite emit_run.
  destruct backend as [b|]; [destruct (String.eqb b "azure")|];
    cbn [ret]; rewrite !emit_run, !extend_extend.
  all: match goal with
       | |- context [detached _ ?w0] =>
           destruct (initialize_settles upstream_outcome events w0)
             as [Hrej | (new & Hw & Hdrains & Hm)]
       end.
  all: try (left; exact Hrej).
  all: right; split; [exact Hdrains|];
    rewrite Hw; unfold settled, extend, empty_world; simpl;
    rewrite app_nil_r; unfold messages in *; simpl; exact Hm.
Qed.

Lemma count_flat_map {A B} (p : B -> bool) (q : string -> bool)
      (f : A -> list B) (g : A -> list string) (l : list A) :
  (forall x, List.length (filter p (f x)) = List.length (filter q (g x))) ->
  List.length (filter p (flat_map f l))
  = List.length (filter q (flat_map g l)).
Proof.
  intros H. induction l as [|x l IH]; simpl; [reflexivity|].
  now rewrite !filter_app, !length_app, H, IH.
Qed.

Lemma done_count_of_deltas (ref r : string) (chunks : list string) :
  filter (is_text_done ref) (map (TextDelta r) chunks) = [].
Proof. induction chunks; simpl; auto. Qed.

(** Each stream owes exactly one [text_done], with its own reference. *)
Lemma done_count_of_content (ref : string) (c : Content) :
  done_count ref (content_messages c) = occurrences ref (content_references c).
Proof.
  unfold done_count, occurrences.
  destruct c as [t|a|other]; simpl; [| |reflexivity];
    unfold text_messages, transcript_messages;
    rewrite filter_app, done_count_of_deltas; simpl;
    destruct (String.eqb _ ref); reflexivity.
Qed.

Lemma done_count_of_events (ref : string) (events : list UpstreamEvent) :
  done_count ref (flat_map event_messages events)
  = occurrences ref (flat_map event_references events).
Proof.
  unfold done_count, occurrences. apply count_flat_map.
  intros [items|i|other]; simpl; [|reflexivity|reflexivity].
  apply count_flat_map. intros [contents|other]; simpl; [|reflexivity].
  apply count_flat_map. intros c. apply done_count_of_content.
Qed.

(** A delta belongs to one of the streams. *)
Lemma delta_of_events (ref delta : string) (events : list UpstreamEvent) :
  In (TextDelta ref delta) (flat_map event_messages events) ->
  In ref (flat_map event_references events).
Proof.
  intros H. apply in_flat_map in H. destruct H as (e & He & H).
  apply in_flat_map. exists e. split; [exact He|].
  destruct e as [items|i|other]; simpl in *.
  - apply in_flat_map in H. destruct H as (it & Hit & H).
    apply in_flat_map. exists it. split; [exact Hit|].
    destruct it as [contents|other]; simpl in *; [|contradiction].
    apply in_flat_map in H. destruct H as (c & Hc & H).
    apply in_flat_map. exists c. split; [exact Hc|].
    destruct c as [t|a|other]; simpl in *; [| |contradiction];
      unfold text_messages, transcript_messages in H;
      apply in_app_or in H; destruct H as [H|[H|[]]]; try discriminate;
      apply in_map_iff in H; destruct H as (x & Hx & _);
      injection Hx as -> _; now left.
  - destruct H as [H|[H|[]]]; discriminate.
  - contradiction.
Qed.

Lemma occurrences_absent (ref : string) (refs : list string) :
  ~ In ref refs -> occurrences ref refs = 0.
Proof.
  unfold occurrences. induction refs as [|r refs IH]; intros H; simpl;
    [reflexivity|].
  destruct (String.eqb_spec r ref) as [->|Hne].
  - exfalso. apply H. now left.
  - apply IH. intros Hin. apply H. now right.
Qed.

Lemma occurrences_nodup (ref : string) (refs : list string) :
  NoDup refs -> In ref refs -> occurrences ref refs = 1.
Proof.
  induction 1 as [|r refs Hr Hnd IH]; intros Hin; [contradiction|].
  unfold occurrences in *. simpl.
  destruct (String.eqb_spec r ref) as [->|Hne].
  - simpl. f_equal. now apply occurrences_absent.
  - destruct Hin as [->|Hin]; [contradiction | now apply IH].
Qed.

(** C1.  In every session, whatever the upstream delivers and however its
    calls end, every content stream the client saw opened (at least one
    [text_delta] with its reference) ends: the client receives exactly one
    [text_done] with that reference, or its connection is closed abruptly.
    More precisely there are two cases.  Either something failed, the
    configuration or the draining of a sequence: the failure leaves
    [initialize] or the event loop as a rejection nobody handles, which
    ends the process and the client's connection with it.  Or every
    sequence ended normally, and the client was sent the greeting and
    then, stream after stream, what each one owes: its deltas and its one
    [text_done].  So a failure partway never leaves the client with an
    open stream and no close.  Streams are told apart by their references,
    which the upstream keeps distinct. *)
Theorem every_opened_stream_ends :
  forall (upstream_outcome : list Effect -> UpCall -> option JsError)
         (backend : option string) (events : Seq UpstreamEvent),
    NoDup (references events) ->
    let es :=
      settled (snd (construct upstream_outcome backend events empty_world)) in
    (connection_dropped es \/
     (forallb event_drains (yields events) && ends_normally (ending events)
      = true /\
      messages es
      = greeting_message :: flat_map event_messages (yields events))) /\
    forall ref, stream_opened ref es -> stream_ended ref es.
Proof.
  intros up backend events Hnd es.
  assert (H : connection_dropped es \/
              (forallb event_drains (yields events)
               && ends_normally (ending events) = true /\
               messages es
               = greeting_message :: flat_map event_messages (yields events))).
  { destruct (construct_settles up backend events) as [[e He]|Hm].
    - left. right. exists e. unfold es, settled. apply in_or_app. now left.
    - right. exact Hm. }
  split; [exact H|].
  intros ref [delta Hopen]. destruct H as [Hdrop|[_ Hm]]; [now right|].
  left. rewrite Hm in Hopen |- *.
  destruct Hopen as [Hopen|Hopen]; [discriminate|].
  apply delta_of_events in Hopen.
  change (done_count ref (flat_map event_messages (yields events)) = 1).
  rewrite done_count_of_events. now apply occurrences_nodup.
Qed.

(** C1 at work, when draining fails partway: the one stream of
    [broken_stream_events], A1-0, is opened by the chunk hi and its
    sequence then fails. *)
Lemma every_opened_stream_ends_witness :
  let es :=
    settled (snd (construct upstream_healthy None broken_stream_events
                    empty_world)) in
  NoDup (references broken_stream_events) /\
  stream_opened "A1-0" es /\
  stream_ended "A1-0" es.
Proof.
  intros es.
  assert (Hnd : NoDup (references broken_stream_events))
    by (repeat constructor; simpl; tauto).
  assert (Hopen : stream_opened "A1-0" es)
    by (exists "hi"; vm_compute; auto).
  split; [exact Hnd|]. split; [exact Hopen|].
  exact (proj2 (every_opened_stream_ends upstream_healthy None
                  broken_stream_events Hnd) "A1-0" Hopen).
Defined.

(** * Sample runs *)

(** The specification's scenario: one text entry yielding hi and there. *)
Example handleTextContent_hi_there :
  handleTextContent (mkText "A1" 0 (mkSeq ["hi"; " there"] None)) empty_world
  = (Ok tt,
     mkWorld [WsSend (TextDelta "A1-0" "hi");
              WsSend (TextDelta "A1-0" " there");
              WsSend (Control (TextDone "A1-0"));
              Log Debug "Text content processed successfully"] []).
Proof. reflexivity. Qed.

(** An audio entry whose transcript and audio arrive interleaved. *)
Example audio_run :
  handleAudioContent
    (mkAudio "A1" 2 (mkSeq [mkChunk "ab"; mkChunk "cd"] None)
       (mkSeq ["x"] None) [TranscriptBranch; AudioBranch; TranscriptBranch])
    empty_world
  = (Ok tt,
     mkWorld [WsSend (TextDelta "A1-2" "x");
              WsSendBinary "ab";
              WsSend (Control (TextDone "A1-2"));
              WsSendBinary "cd";
              Log Debug "Audio content processed successfully"] []).
Proof. reflexivity. Qed.

(** The transcript fails first: the handler throws, and the audio consumer
    goes on forwarding what it is still given. *)
Example audio_run_transcript_fails :
  handleAudioContent
    (mkAudio "A1" 2 (mkSeq [mkChunk "ab"; mkChunk "cd"] None)
       (mkSeq ["x"] (Some (Rejected "boom")))
       [TranscriptBranch; AudioBranch; TranscriptBranch])
    empty_world
  = (Throw (Rejected "boom"),
     mkWorld [WsSend (TextDelta "A1-2" "x");
              WsSendBinary "ab";
              Log Error "Error handling audio content"] [WsSendBinary "cd"]).
Proof. reflexivity. Qed.

(** The specification's scenario for input audio: the start-of-speech
    marker at once, the transcription after the item completed. *)
Example input_audio_run :
  handleInputAudio (mkInputAudio "item_7" (Some "recognized text") None) empty_world
  = (Ok tt,
     mkWorld [WsSend (Control SpeechStarted);
              Upstream (WaitForCompletion "item_7");
              WsSend (Transcription "item_7" "recognized text");
              Log Debug "Input audio processed successfully"] []).
Proof. reflexivity. Qed.

(** A client that disconnects: the upstream is released, once. *)
Example close_run :
  handleClose upstream_healthy empty_world
  = (Ok tt,
     mkWorld [Log Info "Session closing"; Upstream Close;
              Log Info "Session closed successfully"] []).
Proof. reflexivity. Qed.
